(** * Context enrichment window around a retrieved chunk

    A shallow embedding of the three functions of the notebook
    [all_rag_techniques/context_enrichment_window_around_chunk.ipynb]:

    - [split_text_to_chunks_with_indices]: the overlapping chunker;
    - [get_chunk_by_index]: the lookup of a chunk by its chronological index;
    - [retrieve_with_context_overlap]: the neighbour-expanded window
      around every hit of a similarity search.

    Python values are modelled as follows.  A [str] is a list of characters,
    an [int] is a [Z], a Python list is a [list]; slices follow CPython's
    index adjustment (negative indices count from the end, everything is
    clamped to the length).  A call either returns, raises, or (for the
    [while] loop of the chunker, which is run on fuel) does not finish
    within the fuel it was given. *)

From Stdlib Require Import ZArith Ascii String Lia Sorted.
From stdpp Require Import base tactics option list list_numbers.

Local Open Scope Z_scope.

(** ** Python values *)

Abbreviation str := (list ascii).

(** The length of a Python sequence, as an [int]. *)
Definition len {A : Type} (s : list A) : Z := Z.of_nat (length s).

(** A string literal, for the examples. *)
Definition lit (s : string) : str := list_ascii_of_string s.

(** ** Outcomes of a call *)

Inductive outcome (A : Type) : Type :=
| Returns (a : A)
| Raises (exc : string)
| OutOfFuel.

Arguments Returns {A} a.
Arguments Raises {A} exc.
Arguments OutOfFuel {A}.

#[global] Instance outcome_ret : MRet outcome := fun _ a => Returns a.

#[global] Instance outcome_bind : MBind outcome := fun _ _ k m =>
  match m with
  | Returns a => k a
  | Raises exc => Raises exc
  | OutOfFuel => OutOfFuel
  end.

(** ** Slices

    [s[start:stop]] and [s[start:]] with CPython's adjustment of the two
    bounds: a negative bound is taken from the end, and both are clamped
    into [0 .. len s]. *)

Definition py_bound (n i : Z) : Z :=
  if i <? 0 then Z.max 0 (n + i) else Z.min i n.

Definition py_slice {A : Type} (s : list A) (start stop : Z) : list A :=
  let lo := py_bound (len s) start in
  let hi := py_bound (len s) stop in
  take (Z.to_nat (hi - lo)) (drop (Z.to_nat lo) s).

Definition py_slice_from {A : Type} (s : list A) (start : Z) : list A :=
  drop (Z.to_nat (py_bound (len s) start)) s.

(** ** Documents

    A [Document] carries its text and a metadata dictionary.  The notebook
    only ever stores the keys ["index"] (an [int]) and ["text"] (the whole
    source text) in it, and only ever reads ["index"]; a document that did
    not come from the chunker may lack either key.  A key that is absent
    and a key that holds [None] are one case here: no path of the notebook
    tells them apart. *)

Record Metadata : Type := mkMetadata {
  md_index : option Z;
  md_text : option str
}.

Record Document : Type := mkDocument {
  page_content : str;
  metadata : Metadata
}.

(** ** The chunker *)

(** The [while] loop of [split_text_to_chunks_with_indices]; one unit of
    fuel is spent on every evaluation of the loop condition. *)
Fixpoint split_loop (fuel : nat) (text : str) (chunk_size chunk_overlap : Z)
    (start : Z) (chunks : list Document) : outcome (list Document) :=
  match fuel with
  | O => OutOfFuel
  | S fuel' =>
      if start <? len text then
        let end_ := start + chunk_size in
        let chunk := py_slice text start end_ in
        let chunks :=
          chunks ++ [mkDocument chunk (mkMetadata (Some (len chunks)) (Some text))] in
        split_loop fuel' text chunk_size chunk_overlap
          (start + (chunk_size - chunk_overlap)) chunks
      else Returns chunks
  end.

Definition split_text_to_chunks_with_indices (fuel : nat) (text : str)
    (chunk_size chunk_overlap : Z) : outcome (list Document) :=
  split_loop fuel text chunk_size chunk_overlap 0 [].

(** ** The vector store

    The store is an external collaborator.  The notebook uses two of its
    operations: [similarity_search(query, k)], which the retriever made by
    [as_retriever(search_kwargs={"k": k})] also runs, and [index.ntotal],
    the number of stored documents. *)

Record VectorStore : Type := mkVectorStore {
  similarity_search : str -> Z -> list Document;
  index_ntotal : Z
}.

(** ['index' in doc.metadata and doc.metadata['index'] == target_index] *)
Definition index_matches (target_index : Z) (doc : Document) : bool :=
  match md_index (metadata doc) with
  | Some i => i =? target_index
  | None => false
  end.

(** The first document, in the order of the full listing, whose index is
    the target; [None] when the loop ends without a match. *)
Definition get_chunk_by_index (vectorstore : VectorStore) (target_index : Z)
    : outcome (option Document) :=
  let all_docs := similarity_search vectorstore [] (index_ntotal vectorstore) in
  mret (find (index_matches target_index) all_docs).

(** ** The context window *)

(** [range(lo, hi)] *)
Definition py_range (lo hi : Z) : list Z := seqZ lo (hi - lo).

(** A [for] loop over a list, threading the loop state. *)
Fixpoint for_each {A S : Type} (xs : list A) (body : S -> A -> outcome S)
    (s : S) : outcome S :=
  match xs with
  | [] => mret s
  | x :: xs' => s' ← body s x; for_each xs' body s'
  end.

(** One round of the neighbour loop, at distance [i] from the hit.  The
    tests [if prev_chunk:] and [if next_chunk:] tell a document, which is
    always truthy, from [None]. *)
Definition add_neighbors (vectorstore : VectorStore) (current_index : Z)
    (neighbor_chunks : list Document) (i : Z) : outcome (list Document) :=
  prev_chunk ← get_chunk_by_index vectorstore (current_index - i);
  let neighbor_chunks :=
    match prev_chunk with
    | Some d => d :: neighbor_chunks
    | None => neighbor_chunks
    end in
  next_chunk ← get_chunk_by_index vectorstore (current_index + i);
  mret (match next_chunk with
        | Some d => neighbor_chunks ++ [d]
        | None => neighbor_chunks
        end).

(** [x.metadata.get('index', 0)] *)
Definition sort_key (x : Document) : Z := default 0 (md_index (metadata x)).

(** [list.sort] is a stable sort; an insertion sort that puts an element
    in front of the first element whose key is not smaller is one, too. *)
Fixpoint insert_by_key (x : Document) (l : list Document) : list Document :=
  match l with
  | [] => [x]
  | y :: l' =>
      if sort_key x <=? sort_key y then x :: y :: l' else y :: insert_by_key x l'
  end.

Fixpoint sort_by_key (l : list Document) : list Document :=
  match l with
  | [] => []
  | x :: l' => insert_by_key x (sort_by_key l')
  end.

(** The concatenation of the sorted chunks: the first one whole, every
    later one from [overlap_start = chunk_size - chunk_overlap] on. *)
Definition concatenate (chunk_size chunk_overlap : Z)
    (neighbor_chunks : list Document) : outcome str :=
  match neighbor_chunks with
  | [] => Raises "IndexError"
  | first :: rest =>
      mret (foldl (fun concatenated_text d =>
                     let current_chunk := page_content d in
                     let overlap_start := chunk_size - chunk_overlap in
                     concatenated_text ++ py_slice_from current_chunk overlap_start)
                  (page_content first) rest)
  end.

(** The window around one hit whose index is [current_index]. *)
Definition context_window (vectorstore : VectorStore) (num_neighbors : Z)
    (chunk_size chunk_overlap : Z) (chunk : Document) (current_index : Z)
    : outcome str :=
  neighbor_chunks ←
    for_each (py_range 1 (num_neighbors + 1))
             (add_neighbors vectorstore current_index) [chunk];
  let neighbor_chunks := sort_by_key neighbor_chunks in
  concatenate chunk_size chunk_overlap neighbor_chunks.

(** The body of the loop over the hits: a hit whose
    [metadata.get('index')] is [None] is skipped ([continue]), any other
    hit appends its window. *)
Definition retrieve_step (vectorstore : VectorStore) (num_neighbors : Z)
    (chunk_size chunk_overlap : Z) (result_sequences : list str)
    (chunk : Document) : outcome (list str) :=
  match md_index (metadata chunk) with
  | None => mret result_sequences
  | Some current_index =>
      concatenated_text ←
        context_window vectorstore num_neighbors chunk_size chunk_overlap
                       chunk current_index;
      mret (result_sequences ++ [concatenated_text])
  end.

Definition retrieve_with_context_overlap (vectorstore : VectorStore)
    (query : str) (k num_neighbors chunk_size chunk_overlap : Z)
    : outcome (list str) :=
  let relevant_chunks := similarity_search vectorstore query k in
  for_each relevant_chunks
           (retrieve_step vectorstore num_neighbors chunk_size chunk_overlap) [].

(** ** The cell that checks the lookup

    [chunk = get_chunk_by_index(vectorstore, 0)] followed by
    [print(chunk.page_content)]: the outcome is the string handed to
    [print]; reading [page_content] off [None] raises. *)

Definition check_the_function (vectorstore : VectorStore) : outcome str :=
  chunk ← get_chunk_by_index vectorstore 0;
  match chunk with
  | Some d => mret (page_content d)
  | None => Raises "AttributeError"
  end.

(** ** A store for the examples

    It lists its documents in the order they were loaded, and answers a
    query with the documents whose text contains the query's first
    character, best [k] first. *)

Definition mentions (query : str) (d : Document) : bool :=
  match query with
  | [] => true
  | c :: _ => existsb (Ascii.eqb c) (page_content d)
  end.

Definition store_of (docs : list Document) : VectorStore :=
  mkVectorStore (fun query k => take (Z.to_nat k) (List.filter (mentions query) docs))
                (len docs).

(** The four chunks of ["abcdefg"] for [chunk_size = 3] and
    [chunk_overlap = 1], and a document that did not come from the chunker
    and has no index. *)
Definition example_docs : list Document :=
  [ mkDocument (lit "abc") (mkMetadata (Some 0) (Some (lit "abcdefg")));
    mkDocument (lit "cde") (mkMetadata (Some 1) (Some (lit "abcdefg")));
    mkDocument (lit "efg") (mkMetadata (Some 2) (Some (lit "abcdefg")));
    mkDocument (lit "g") (mkMetadata (Some 3) (Some (lit "abcdefg")));
    mkDocument (lit "xd") (mkMetadata None None) ].

(** * Specification

    The vocabulary of the properties: the parameters the chunker is meant
    for, its chunks in closed form, and the statements of the written
    specification that are compared with the code below. *)

(** [ceil (a / b)], written [-(-a // b)] in Python. *)
Definition ceil_div (a b : Z) : Z := - ((- a) / b).

(** The precondition of the chunker. *)
Definition valid_parameters (chunk_size chunk_overlap : Z) : Prop :=
  0 < chunk_size ∧ 0 ≤ chunk_overlap < chunk_size.

(** What the [i]-th round of the chunker's loop appends. *)
Definition chunk_doc (text : str) (chunk_size chunk_overlap : Z) (i : nat) : Document :=
  let step := chunk_size - chunk_overlap in
  mkDocument (py_slice text (Z.of_nat i * step) (Z.of_nat i * step + chunk_size))
             (mkMetadata (Some (Z.of_nat i)) (Some text)).

(** The [n] chunks from index [lo] on. *)
Definition chunk_run (text : str) (chunk_size chunk_overlap : Z) (lo n : nat)
    : list Document :=
  map (chunk_doc text chunk_size chunk_overlap) (seq lo n).

Definition chunk_docs (text : str) (chunk_size chunk_overlap : Z) (n : nat)
    : list Document :=
  chunk_run text chunk_size chunk_overlap 0 n.

Definition num_chunks (text : str) (chunk_size chunk_overlap : Z) : nat :=
  Z.to_nat (ceil_div (len text) (chunk_size - chunk_overlap)).

(** The concatenation of §4.1 of the specification: all chunks in order,
    every chunk after the first without its leading [chunk_overlap]
    characters. *)
Definition concat_dropping_overlap (chunk_overlap : Z) (chunks : list Document) : str :=
  match chunks with
  | [] => []
  | first :: rest =>
      page_content first
      ++ concat (map (fun d => drop (Z.to_nat chunk_overlap) (page_content d)) rest)
  end.

(** The count law as the specification words it. *)
Definition count_law (text_len chunk_size chunk_overlap : Z) : Z :=
  if text_len <=? chunk_size then 1
  else ceil_div (text_len - chunk_overlap) (chunk_size - chunk_overlap).

(** The edge case of a short text as the specification words it. *)
Definition one_chunk_spanning (text : str) (chunks : list Document) : Prop :=
  ∃ c, chunks = [c] ∧ page_content c = text.

(** Boundedness as the specification words it. *)
Definition only_last_shorter (chunk_size : Z) (chunks : list Document) : Prop :=
  ∀ (i : nat) (d : Document),
    chunks !! i = Some d →
    len (page_content d) ≤ chunk_size
    ∧ ((S i < length chunks)%nat → len (page_content d) = chunk_size).

(** "The chunking fails with [ConfigError]." *)
Definition fails_with_config_error (text : str) (chunk_size chunk_overlap : Z) : Prop :=
  ∃ fuel,
    split_text_to_chunks_with_indices fuel text chunk_size chunk_overlap
    = Raises "ConfigError".

(** [w] is the window the code builds around [hit]. *)
Definition window_of (vectorstore : VectorStore)
    (num_neighbors chunk_size chunk_overlap : Z) (hit : Document) (w : str) : Prop :=
  ∃ current_index,
    md_index (metadata hit) = Some current_index
    ∧ context_window vectorstore num_neighbors chunk_size chunk_overlap hit current_index
      = Returns w.

(** The store lists exactly the chunks of one run of the chunker, in some
    order. *)
Definition holds_chunks (vectorstore : VectorStore) (chunks : list Document) : Prop :=
  similarity_search vectorstore [] (index_ntotal vectorstore) ≡ₚ chunks.

(** What the lookup finds for the index [t], if anything. *)
Definition stored_at (vectorstore : VectorStore) (t : Z) : option Document :=
  find (index_matches t)
       (similarity_search vectorstore [] (index_ntotal vectorstore)).

(** The chunks found below and above the index [current_index], at the
    distances [1 .. num_neighbors], each list in ascending order of the
    index. *)
Definition neighbors_below (vectorstore : VectorStore) (current_index num_neighbors : Z)
    : list Document :=
  reverse (omap (fun i => stored_at vectorstore (current_index - i))
                (py_range 1 (num_neighbors + 1))).

Definition neighbors_above (vectorstore : VectorStore) (current_index num_neighbors : Z)
    : list Document :=
  omap (fun i => stored_at vectorstore (current_index + i))
       (py_range 1 (num_neighbors + 1)).

(** The span of the text from the start of the lowest chunk within
    [num_neighbors] of chunk [h] to the end of the highest. *)
Definition window_span (text : str) (chunk_size chunk_overlap num_neighbors : Z)
    (h : nat) : str :=
  let step := chunk_size - chunk_overlap in
  let total := num_chunks text chunk_size chunk_overlap in
  let lo := (h - Z.to_nat num_neighbors)%nat in
  let hi := ((h + Z.to_nat num_neighbors) `min` (total - 1))%nat in
  py_slice text (Z.of_nat lo * step)
           (Z.of_nat hi * step + len (page_content (chunk_doc text chunk_size chunk_overlap hi))).

(** * Properties *)

(** ** Arithmetic *)

Lemma ceil_div_bounds (a b : Z) :
  0 < b → (ceil_div a b - 1) * b < a ≤ ceil_div a b * b.
Proof.
  intros Hb. unfold ceil_div.
  pose proof (Z.div_mod (- a) b ltac:(lia)) as Hdm.
  pose proof (Z.mod_pos_bound (- a) b Hb) as Hm.
  nia.
Qed.

Lemma ceil_div_nonneg (a b : Z) : 0 < b → 0 ≤ a → 0 ≤ ceil_div a b.
Proof. intros Hb Ha. pose proof (ceil_div_bounds a b Hb). nia. Qed.

Lemma ceil_div_le_self (a b : Z) : 0 < b → 0 ≤ a → ceil_div a b ≤ a.
Proof. intros Hb Ha. pose proof (ceil_div_bounds a b Hb). nia. Qed.

Lemma lt_ceil_div (a b j : Z) : 0 < b → j < ceil_div a b ↔ j * b < a.
Proof. intros Hb. pose proof (ceil_div_bounds a b Hb). split; nia. Qed.

Lemma of_nat_mul_to_nat (i : nat) (w : Z) :
  0 ≤ w → Z.of_nat (i * Z.to_nat w) = Z.of_nat i * w.
Proof. intros Hw. rewrite Nat2Z.inj_mul. f_equal. lia. Qed.

(** ** Slices *)

Section slices.
Context {A : Type}.
Implicit Types s : list A.

Lemma len_nonneg s : 0 ≤ len s.
Proof. unfold len. lia. Qed.

Lemma len_pos s : s ≠ [] → 0 < len s.
Proof. unfold len. destruct s; simpl; [done|lia]. Qed.

(** A slice with both bounds non-negative and in order is a [take] of a
    [drop]. *)
Lemma py_slice_window s (a c : Z) :
  0 ≤ a → 0 ≤ c →
  py_slice s a (a + c) = take (Z.to_nat c) (drop (Z.to_nat a) s).
Proof.
  intros Ha Hc. unfold py_slice, py_bound, len.
  destruct (Z.ltb_spec a 0) as [|_]; [lia|].
  destruct (Z.ltb_spec (a + c) 0) as [|_]; [lia|].
  destruct (Z.le_gt_cases (Z.of_nat (length s)) a) as [Hout|Hin].
  - rewrite !drop_ge by lia. by rewrite !take_nil.
  - rewrite (Z.min_l a) by lia.
    destruct (Z.le_gt_cases (a + c) (Z.of_nat (length s))) as [Hfit|Hclip].
    + rewrite Z.min_l by lia. do 2 f_equal. lia.
    + rewrite Z.min_r by lia.
      rewrite !take_ge; [done| |]; rewrite length_drop; lia.
Qed.

Lemma py_slice_from_nonneg s (a : Z) :
  0 ≤ a → py_slice_from s a = drop (Z.to_nat a) s.
Proof.
  intros Ha. unfold py_slice_from, py_bound, len.
  destruct (Z.ltb_spec a 0) as [|_]; [lia|].
  destruct (Z.le_gt_cases (Z.of_nat (length s)) a) as [Hout|Hin].
  - rewrite !drop_ge; [done| |]; lia.
  - f_equal. lia.
Qed.

Lemma drop_take_window s (n m : nat) :
  drop n (take (n + m) s) = take m (drop n s).
Proof. by rewrite take_drop_commute. Qed.

(** Taking more than there is takes all there is. *)
Lemma take_clipped s (n m : nat) :
  (n `min` length s = m `min` length s)%nat → take n s = take m s.
Proof.
  intros Hmin.
  rewrite <- (take_ge s (length s)) at 1 2 by done.
  by rewrite !take_take, Hmin.
Qed.

(** Consecutive windows of width [w], from offset [a] on, put end to end. *)
Lemma concat_windows s (a w m : nat) :
  concat (map (fun j => take w (drop (a + j * w) s)) (seq 0 m))
  = take (m * w) (drop a s).
Proof.
  induction m as [|m IH].
  - by rewrite take_0.
  - rewrite seq_S, map_app, concat_app, IH. simpl. rewrite app_nil_r.
    replace (take w (drop (a + m * w) s))
      with (take w (drop (m * w) (drop a s))) by (by rewrite drop_drop).
    rewrite take_take_drop. f_equal. lia.
Qed.

Lemma foldl_app_concat {B : Type} (f : B → list A) (l : list B) (acc : list A) :
  foldl (fun acc x => acc ++ f x) acc l = acc ++ concat (map f l).
Proof.
  revert acc. induction l as [|x l IH]; intros acc; simpl.
  - by rewrite app_nil_r.
  - by rewrite IH, app_assoc.
Qed.
End slices.

(** ** The outcome monad and loops *)

Lemma bind_Returns {A B : Type} (a : A) (k : A → outcome B) :
  Returns a ≫= k = k a.
Proof. done. Qed.

Lemma for_each_cons {A S : Type} (x : A) (xs : list A) (body : S → A → outcome S) (s : S) :
  for_each (x :: xs) body s = body s x ≫= for_each xs body.
Proof. done. Qed.

Lemma for_each_snoc {A S : Type} (xs : list A) (x : A) (body : S → A → outcome S) :
  ∀ s, for_each (xs ++ [x]) body s = for_each xs body s ≫= (fun s' => body s' x).
Proof.
  induction xs as [|y xs IH]; intros s.
  - simpl. by destruct (body s x).
  - rewrite <- app_comm_cons, !for_each_cons.
    destruct (body s y) as [s'| |]; [|done..]. rewrite !bind_Returns. apply IH.
Qed.

(** A loop whose body returns and keeps an invariant returns and keeps it. *)
Lemma for_each_returns {A S : Type} (P : S → Prop) (body : S → A → outcome S)
    (xs : list A) :
  (∀ s x, P s → ∃ s', body s x = Returns s' ∧ P s') →
  ∀ s, P s → ∃ s', for_each xs body s = Returns s' ∧ P s'.
Proof.
  intros Hbody. induction xs as [|x xs IH]; intros s Hs.
  - by exists s.
  - rewrite for_each_cons.
    destruct (Hbody s x Hs) as (s' & -> & Hs'). rewrite bind_Returns. by apply IH.
Qed.

Lemma py_range_S (lo : Z) (n : nat) :
  py_range lo (lo + Z.of_nat (S n)) = py_range lo (lo + Z.of_nat n) ++ [lo + Z.of_nat n].
Proof.
  unfold py_range, seqZ.
  replace (Z.to_nat (lo + Z.of_nat (S n) - lo)) with (S n) by lia.
  replace (Z.to_nat (lo + Z.of_nat n - lo)) with n by lia.
  rewrite seq_S, fmap_app. simpl. do 2 f_equal. lia.
Qed.

(** ** The chunker's loop *)

Section chunker.
Variables (text : str) (chunk_size chunk_overlap : Z).

Local Abbreviation step := (chunk_size - chunk_overlap).
Local Abbreviation doc := (chunk_doc text chunk_size chunk_overlap).
Local Abbreviation run := (chunk_run text chunk_size chunk_overlap).
Local Abbreviation docs := (chunk_docs text chunk_size chunk_overlap).
Local Abbreviation total := (num_chunks text chunk_size chunk_overlap).

Lemma length_chunk_run lo n : length (run lo n) = n.
Proof. unfold chunk_run. by rewrite length_map, length_seq. Qed.

Lemma chunk_run_S lo n : run lo (S n) = run lo n ++ [doc (lo + n)%nat].
Proof. unfold chunk_run. by rewrite seq_S, map_app. Qed.

Lemma chunk_run_cons lo n : run lo (S n) = doc lo :: run (S lo) n.
Proof. done. Qed.

Lemma lookup_chunk_run lo n i d :
  run lo n !! i = Some d ↔ d = doc (lo + i)%nat ∧ (i < n)%nat.
Proof.
  unfold chunk_run. rewrite list_lookup_fmap, fmap_Some. split.
  - intros (j & [-> ?]%lookup_seq & ->). done.
  - intros [-> ?]. exists (lo + i)%nat. split; [|done]. by apply lookup_seq.
Qed.

Lemma elem_of_chunk_docs n d :
  d ∈ docs n ↔ ∃ i, d = doc i ∧ (i < n)%nat.
Proof.
  rewrite list_elem_of_lookup. unfold chunk_docs.
  split; intros [i Hi]; exists i; by apply (lookup_chunk_run 0).
Qed.

(** The loop invariant: after [k] rounds the loop is at [start = k * step]
    with the first [k] chunks; [n] more rounds pass the test, the next one
    does not. *)
Lemma split_loop_runs (n : nat) :
  ∀ (fuel k : nat),
    (∀ j : nat, (k ≤ j < k + n)%nat → Z.of_nat j * step < len text) →
    ¬ (Z.of_nat (k + n) * step < len text) →
    (n < fuel)%nat →
    split_loop fuel text chunk_size chunk_overlap (Z.of_nat k * step) (docs k)
    = Returns (docs (k + n)).
Proof.
  induction n as [|n IH]; intros fuel k Hin Hout Hfuel;
    (destruct fuel as [|fuel]; [lia|]); simpl.
  - rewrite Nat.add_0_r in *.
    destruct (Z.ltb_spec (Z.of_nat k * step) (len text)); [lia|done].
  - destruct (Z.ltb_spec (Z.of_nat k * step) (len text)) as [_|Hge].
    2:{ specialize (Hin k). lia. }
    unfold len at 1, chunk_docs. rewrite length_chunk_run.
    change (mkDocument _ _) with (doc (0 + k)%nat). rewrite <- chunk_run_S.
    replace (Z.of_nat k * step + step) with (Z.of_nat (S k) * step) by lia.
    replace (k + S n)%nat with (S k + n)%nat by lia.
    apply IH; [|by replace (S k + n)%nat with (k + S n)%nat by lia|lia].
    intros j Hj. apply Hin. lia.
Qed.

(** When every further round passes the test, no amount of fuel is
    enough. *)
Lemma split_loop_spins (fuel : nat) :
  ∀ k : nat,
    (∀ j : nat, (k ≤ j)%nat → Z.of_nat j * step < len text) →
    split_loop fuel text chunk_size chunk_overlap (Z.of_nat k * step) (docs k)
    = OutOfFuel.
Proof.
  induction fuel as [|fuel IH]; intros k Hin; [done|]. simpl.
  destruct (Z.ltb_spec (Z.of_nat k * step) (len text)) as [_|Hge].
  2:{ specialize (Hin k). lia. }
  unfold len at 1, chunk_docs. rewrite length_chunk_run.
  change (mkDocument _ _) with (doc (0 + k)%nat). rewrite <- chunk_run_S.
  replace (Z.of_nat k * step + step) with (Z.of_nat (S k) * step) by lia.
  apply IH. intros j Hj. apply Hin. lia.
Qed.

(** The loop raises nothing, whatever its arguments. *)
Lemma split_loop_never_raises (fuel : nat) :
  ∀ start chunks exc,
    split_loop fuel text chunk_size chunk_overlap start chunks ≠ Raises exc.
Proof.
  induction fuel as [|fuel IH]; intros start chunks exc; simpl; [done|].
  destruct (start <? len text); [apply IH|done].
Qed.

(** More fuel does not change what the loop returns. *)
Lemma split_loop_more_fuel (fuel : nat) :
  ∀ fuel' start chunks result,
    split_loop fuel text chunk_size chunk_overlap start chunks = Returns result →
    (fuel ≤ fuel')%nat →
    split_loop fuel' text chunk_size chunk_overlap start chunks = Returns result.
Proof.
  induction fuel as [|fuel IH]; intros fuel' start chunks result Hrun Hle; [done|].
  destruct fuel' as [|fuel']; [lia|]. simpl in *.
  destruct (start <? len text); [|done]. eapply IH; [done|lia].
Qed.

(** It numbers the chunks by position, whatever its arguments. *)
Lemma split_loop_indices (fuel : nat) :
  ∀ start chunks result,
    split_loop fuel text chunk_size chunk_overlap start chunks = Returns result →
    (∀ (i : nat) d, chunks !! i = Some d → md_index (metadata d) = Some (Z.of_nat i)) →
    ∀ (i : nat) d, result !! i = Some d → md_index (metadata d) = Some (Z.of_nat i).
Proof.
  induction fuel as [|fuel IH]; intros start chunks result Hrun Hinv; [done|].
  simpl in Hrun. destruct (start <? len text).
  - eapply IH; [exact Hrun|]. intros i d Hi.
    apply lookup_app_Some in Hi as [Hi|[Hge Hi]]; [by apply Hinv|].
    apply list_lookup_singleton_Some in Hi as [Hi <-]. simpl.
    unfold len. f_equal. lia.
  - injection Hrun as <-. exact Hinv.
Qed.

Lemma split_indices (fuel : nat) (chunks : list Document) (i : nat) (d : Document) :
  split_text_to_chunks_with_indices fuel text chunk_size chunk_overlap = Returns chunks →
  chunks !! i = Some d →
  md_index (metadata d) = Some (Z.of_nat i).
Proof. intros Hrun. by apply (split_loop_indices _ _ _ _ Hrun). Qed.

(** With a non-positive step and a non-empty text the chunker does not
    return. *)
Lemma split_spins (fuel : nat) :
  step ≤ 0 → text ≠ [] →
  split_text_to_chunks_with_indices fuel text chunk_size chunk_overlap = OutOfFuel.
Proof.
  intros Hstep Htext. apply (split_loop_spins fuel 0%nat).
  intros j _. pose proof (len_pos text Htext). nia.
Qed.

(** *** With a positive step *)

Section positive_step.
Hypothesis Hstep : 0 < step.

Lemma num_chunks_spec : Z.of_nat total = ceil_div (len text) step.
Proof.
  unfold num_chunks.
  pose proof (ceil_div_nonneg (len text) step Hstep (len_nonneg text)). lia.
Qed.

Lemma lt_num_chunks (j : nat) : (j < total)%nat ↔ Z.of_nat j * step < len text.
Proof. rewrite <- lt_ceil_div by done. rewrite <- num_chunks_spec. lia. Qed.

Lemma num_chunks_le_length : (total ≤ length text)%nat.
Proof.
  pose proof (ceil_div_le_self (len text) step Hstep (len_nonneg text)).
  pose proof num_chunks_spec. unfold len in *. lia.
Qed.

Lemma num_chunks_pos : text ≠ [] → (0 < total)%nat.
Proof. intros Htext. apply lt_num_chunks. pose proof (len_pos text Htext). lia. Qed.

(** The chunker returns, on any fuel above the length of the text, the
    chunks [0 .. total - 1]. *)
Lemma split_returns (fuel : nat) :
  (length text < fuel)%nat →
  split_text_to_chunks_with_indices fuel text chunk_size chunk_overlap
  = Returns (docs total).
Proof.
  intros Hfuel. pose proof num_chunks_le_length.
  apply (split_loop_runs total fuel 0%nat); [| |lia].
  - intros j Hj. apply lt_num_chunks. lia.
  - rewrite <- lt_num_chunks. simpl. lia.
Qed.

(** Whatever fuel it returns on, these are the chunks it returns. *)
Lemma split_returns_inv (fuel : nat) (chunks : list Document) :
  split_text_to_chunks_with_indices fuel text chunk_size chunk_overlap = Returns chunks →
  chunks = docs total.
Proof.
  intros Hrun.
  apply (split_loop_more_fuel _ (fuel `max` S (length text))) in Hrun; [|lia].
  unfold split_text_to_chunks_with_indices in *.
  pose proof (split_returns (fuel `max` S (length text)) ltac:(lia)) as Hret.
  unfold split_text_to_chunks_with_indices in Hret. congruence.
Qed.

Lemma page_content_chunk_doc (i : nat) :
  0 ≤ chunk_size →
  page_content (doc i) = take (Z.to_nat chunk_size) (drop (i * Z.to_nat step) text).
Proof.
  intros Hsize. simpl. rewrite py_slice_window by nia.
  do 2 f_equal. rewrite Z2Nat.inj_mul, Nat2Z.id by lia. done.
Qed.

Lemma length_chunk_doc (i : nat) :
  0 ≤ chunk_size →
  len (page_content (doc i))
  = Z.max 0 (Z.min chunk_size (len text - Z.of_nat i * step)).
Proof.
  intros Hsize. rewrite page_content_chunk_doc by done.
  unfold len. rewrite length_take, length_drop.
  pose proof (of_nat_mul_to_nat i step ltac:(lia)). lia.
Qed.
End positive_step.
End chunker.

(** ** Chunks put end to end *)

Section valid_chunks.
Variables (text : str) (chunk_size chunk_overlap : Z).
Hypothesis Hvalid : valid_parameters chunk_size chunk_overlap.

Local Abbreviation doc := (chunk_doc text chunk_size chunk_overlap).
Local Abbreviation run := (chunk_run text chunk_size chunk_overlap).
Local Abbreviation total := (num_chunks text chunk_size chunk_overlap).
Local Abbreviation size := (Z.to_nat chunk_size).
Local Abbreviation overlap := (Z.to_nat chunk_overlap).
Local Abbreviation stride := (Z.to_nat (chunk_size - chunk_overlap)).

Lemma valid_step : 0 < chunk_size - chunk_overlap.
Proof. destruct Hvalid. lia. Qed.

Lemma valid_size : 0 ≤ chunk_size.
Proof. destruct Hvalid. lia. Qed.

Lemma size_overlap_stride : size = (overlap + stride)%nat.
Proof. destruct Hvalid. lia. Qed.

(** Chunk [S j] without its first [chunk_overlap] characters is the window
    of one stride that starts where chunk [j] ends. *)
Lemma chunk_tail (j : nat) :
  drop overlap (page_content (doc (S j)))
  = take stride (drop (size + j * stride) text).
Proof.
  rewrite page_content_chunk_doc by (apply valid_step || apply valid_size).
  rewrite size_overlap_stride at 1.
  rewrite drop_take_window, drop_drop. do 2 f_equal.
  rewrite size_overlap_stride. lia.
Qed.

(** A run of chunks, each after the first without its overlap, is one
    span of the text. *)
Lemma concat_dropping_overlap_run (lo n : nat) :
  concat_dropping_overlap chunk_overlap (run lo (S n))
  = take (size + n * stride) (drop (lo * stride) text).
Proof.
  rewrite chunk_run_cons. unfold chunk_run, concat_dropping_overlap.
  rewrite <- fmap_S_seq.
  change (map ?f (S <$> ?l)) with (map f (map S l)). rewrite !map_map.
  rewrite (map_ext _ _ chunk_tail).
  replace (seq lo n) with (Nat.add lo <$> seq 0 n)
    by (rewrite fmap_add_seq; f_equal; lia).
  change (map ?f (?g <$> ?l)) with (map f (map g l)). rewrite map_map.
  rewrite (map_ext _ (fun j => take stride (drop (size + j * stride) (drop (lo * stride) text)))).
  2:{ intros j. rewrite drop_drop. do 2 f_equal. lia. }
  rewrite concat_windows.
  rewrite page_content_chunk_doc by (apply valid_step || apply valid_size).
  apply take_take_drop.
Qed.

(** The last chunk reaches the end of the text. *)
Lemma chunks_cover (n : nat) :
  total = S n → (length text ≤ size + n * stride)%nat.
Proof.
  intros Hn. destruct Hvalid as [Hsize Hover]. pose proof valid_step as Hstep.
  pose proof (ceil_div_bounds (len text) _ Hstep) as [_ Hup].
  rewrite <- num_chunks_spec, Hn in Hup by done. unfold len in Hup.
  pose proof (of_nat_mul_to_nat n (chunk_size - chunk_overlap) ltac:(lia)).
  nia.
Qed.

(** The span from the start of chunk [lo] to the end of chunk [lo + n]. *)
Lemma span_of_run (lo n : nat) :
  (lo + n < total)%nat →
  py_slice text (Z.of_nat lo * (chunk_size - chunk_overlap))
           (Z.of_nat (lo + n) * (chunk_size - chunk_overlap)
            + len (page_content (doc (lo + n))))
  = take (size + n * stride) (drop (lo * stride) text).
Proof.
  intros Hlast. destruct Hvalid as [Hsize Hover]. pose proof valid_step as Hstep.
  apply lt_num_chunks in Hlast; [|done].
  rewrite length_chunk_doc by (done || lia).
  pose proof (of_nat_mul_to_nat n (chunk_size - chunk_overlap) ltac:(lia)) as Hn.
  pose proof (of_nat_mul_to_nat lo (chunk_size - chunk_overlap) ltac:(lia)) as Hlo.
  set (e := Z.max 0 (Z.min chunk_size
                       (len text - Z.of_nat (lo + n) * (chunk_size - chunk_overlap)))).
  replace (Z.of_nat (lo + n) * (chunk_size - chunk_overlap) + e)
    with (Z.of_nat lo * (chunk_size - chunk_overlap)
          + (Z.of_nat n * (chunk_size - chunk_overlap) + e)) by lia.
  rewrite py_slice_window by (subst e; nia).
  replace (Z.to_nat (Z.of_nat lo * (chunk_size - chunk_overlap)))
    with (lo * stride)%nat by (rewrite <- Hlo; by rewrite Nat2Z.id).
  apply take_clipped. rewrite length_drop. subst e. unfold len in *. lia.
Qed.
End valid_chunks.

(** ** The concatenation of the code *)

(** It is the concatenation of §4.1 with the step
    [chunk_size - chunk_overlap] in the place of the overlap. *)
Lemma concatenate_dropping_step (chunk_size chunk_overlap : Z) (first : Document)
    (rest : list Document) :
  0 ≤ chunk_size - chunk_overlap →
  concatenate chunk_size chunk_overlap (first :: rest)
  = Returns (concat_dropping_overlap (chunk_size - chunk_overlap) (first :: rest)).
Proof.
  intros Hstep. unfold concatenate. simpl. rewrite foldl_app_concat.
  do 3 f_equal. apply map_ext. intros d. by apply py_slice_from_nonneg.
Qed.

Lemma concatenate_returns (chunk_size chunk_overlap : Z) (l : list Document) :
  l ≠ [] → ∃ t, concatenate chunk_size chunk_overlap l = Returns t.
Proof. destruct l; [done|]. intros _. simpl. by eexists. Qed.

(** X13.  So the two agree, and the code's concatenation of all chunks
    gives the text back, when the overlap is half the chunk size, as it is
    for the sizes 200 and 100 the notebook uses. *)
Lemma concatenate_round_trip_half_overlap (text : str) (chunk_overlap : Z) (fuel : nat) :
  0 < chunk_overlap → text ≠ [] → (length text < fuel)%nat →
  ∃ chunks,
    split_text_to_chunks_with_indices fuel text (2 * chunk_overlap) chunk_overlap
    = Returns chunks
    ∧ concatenate (2 * chunk_overlap) chunk_overlap chunks = Returns text.
Proof.
  intros Hover Htext Hfuel.
  assert (valid_parameters (2 * chunk_overlap) chunk_overlap) as Hvalid
    by (unfold valid_parameters; lia).
  pose proof (valid_step _ _ Hvalid) as Hstep.
  eexists. split; [by apply split_returns|].
  pose proof (num_chunks_pos text _ _ Hstep Htext) as Hpos.
  destruct (num_chunks text (2 * chunk_overlap) chunk_overlap) as [|n] eqn:Hn; [lia|].
  unfold chunk_docs. rewrite chunk_run_cons, concatenate_dropping_step by lia.
  rewrite <- chunk_run_cons.
  replace (2 * chunk_overlap - chunk_overlap) with chunk_overlap at 1 by lia.
  rewrite concat_dropping_overlap_run by done.
  rewrite drop_0. f_equal. apply take_ge. by apply chunks_cover.
Qed.

(** ** The window of a hit *)

Lemma index_matches_spec (target_index : Z) (d : Document) :
  index_matches target_index d = true ↔ md_index (metadata d) = Some target_index.
Proof.
  unfold index_matches. destruct (md_index (metadata d)) as [i|]; [|done].
  rewrite Z.eqb_eq. split; congruence.
Qed.

Lemma add_neighbors_returns (vectorstore : VectorStore) (current_index : Z)
    (neighbor_chunks : list Document) (i : Z) :
  neighbor_chunks ≠ [] →
  ∃ l, add_neighbors vectorstore current_index neighbor_chunks i = Returns l ∧ l ≠ [].
Proof.
  intros Hne. unfold add_neighbors, get_chunk_by_index. simpl.
  eexists. split; [done|].
  repeat case_match; try done; by destruct neighbor_chunks.
Qed.

Lemma length_insert_by_key (x : Document) (l : list Document) :
  length (insert_by_key x l) = S (length l).
Proof.
  induction l as [|y l IH]; simpl; [done|].
  case_match; simpl; [done|by rewrite IH].
Qed.

Lemma length_sort_by_key (l : list Document) :
  length (sort_by_key l) = length l.
Proof.
  induction l as [|x l IH]; simpl; [done|].
  by rewrite length_insert_by_key, IH.
Qed.

(** [sort_by_key] is a stable sort by the key: its result is a permutation
    of the list, in ascending order of the key, and the elements of any one
    key keep their order. *)
Lemma insert_by_key_perm (x : Document) (l : list Document) :
  insert_by_key x l ≡ₚ x :: l.
Proof.
  induction l as [|y l IH]; simpl; [done|].
  case_match; [done|]. by rewrite IH, Permutation_swap.
Qed.

Lemma sort_by_key_perm (l : list Document) : sort_by_key l ≡ₚ l.
Proof.
  induction l as [|x l IH]; simpl; [done|].
  by rewrite insert_by_key_perm, IH.
Qed.

Lemma insert_by_key_sorted (x : Document) (l : list Document) :
  Sorted (fun a b => sort_key a ≤ sort_key b) l →
  Sorted (fun a b => sort_key a ≤ sort_key b) (insert_by_key x l).
Proof.
  induction 1 as [|y l Hsorted IH Hhd]; simpl; [by repeat constructor|].
  destruct (Z.leb_spec (sort_key x) (sort_key y)) as [Hle|Hgt].
  - by repeat constructor.
  - constructor; [done|]. destruct Hhd as [|z l Hyz]; simpl.
    + constructor. lia.
    + case_match; constructor; lia.
Qed.

Lemma sort_by_key_sorted (l : list Document) :
  Sorted (fun a b => sort_key a ≤ sort_key b) (sort_by_key l).
Proof.
  induction l as [|x l IH]; simpl; [constructor|by apply insert_by_key_sorted].
Qed.

Lemma insert_by_key_stable (key : Z) (x : Document) (l : list Document) :
  filter (fun d => sort_key d = key) (insert_by_key x l)
  = filter (fun d => sort_key d = key) (x :: l).
Proof.
  induction l as [|y l IH]; simpl; [done|].
  destruct (Z.leb_spec (sort_key x) (sort_key y)) as [Hle|Hgt]; [done|].
  rewrite (filter_cons _ y), IH, !(filter_cons _ x), (filter_cons _ y).
  repeat case_decide; try done; lia.
Qed.

Lemma sort_by_key_stable (key : Z) (l : list Document) :
  filter (fun d => sort_key d = key) (sort_by_key l)
  = filter (fun d => sort_key d = key) l.
Proof.
  induction l as [|x l IH]; simpl; [done|].
  by rewrite insert_by_key_stable, !filter_cons, IH.
Qed.

(** The window of a hit is always built: the working set holds the hit, so
    its first element exists. *)
Lemma context_window_returns (vectorstore : VectorStore)
    (num_neighbors chunk_size chunk_overlap : Z) (chunk : Document) (current_index : Z) :
  ∃ t,
    context_window vectorstore num_neighbors chunk_size chunk_overlap chunk current_index
    = Returns t.
Proof.
  unfold context_window.
  destruct (for_each_returns (fun l => l ≠ [])
              (add_neighbors vectorstore current_index)
              (py_range 1 (num_neighbors + 1))
              (add_neighbors_returns vectorstore current_index)
              [chunk] ltac:(done)) as (l & -> & Hl).
  rewrite bind_Returns. apply concatenate_returns.
  intros Hnil. apply (f_equal length) in Hnil.
  rewrite length_sort_by_key in Hnil. by destruct l.
Qed.

(** ** The loop over the hits *)

Section retrieve.
Variables (vectorstore : VectorStore) (num_neighbors chunk_size chunk_overlap : Z).

Local Abbreviation step_of_loop :=
  (retrieve_step vectorstore num_neighbors chunk_size chunk_overlap).
Local Abbreviation indexed :=
  (filter (fun d : Document => is_Some (md_index (metadata d)))).

Lemma retrieve_step_indexed (result_sequences : list str) (chunk : Document)
    (current_index : Z) (t : str) :
  md_index (metadata chunk) = Some current_index →
  context_window vectorstore num_neighbors chunk_size chunk_overlap chunk current_index
  = Returns t →
  step_of_loop result_sequences chunk = Returns (result_sequences ++ [t]).
Proof. intros Hci Hwin. unfold retrieve_step. by rewrite Hci, Hwin. Qed.

Lemma retrieve_step_skipped (result_sequences : list str) (chunk : Document) :
  md_index (metadata chunk) = None →
  step_of_loop result_sequences chunk = Returns result_sequences.
Proof. intros Hci. unfold retrieve_step. by rewrite Hci. Qed.

Lemma indexed_cons_Some (hit : Document) (hits : list Document) (ci : Z) :
  md_index (metadata hit) = Some ci → indexed (hit :: hits) = hit :: indexed hits.
Proof. intros Hci. rewrite filter_cons_True; [done|]. by rewrite Hci. Qed.

Lemma indexed_cons_None (hit : Document) (hits : list Document) :
  md_index (metadata hit) = None → indexed (hit :: hits) = indexed hits.
Proof. intros Hci. rewrite filter_cons_False; [done|]. rewrite Hci. by intros [? ?]. Qed.

(** The loop appends one window per hit that has an index, in order. *)
Lemma retrieve_loop (hits : list Document) :
  ∀ result_sequences,
    ∃ windows,
      for_each hits step_of_loop result_sequences = Returns (result_sequences ++ windows)
      ∧ Forall2 (window_of vectorstore num_neighbors chunk_size chunk_overlap)
                (indexed hits) windows.
Proof.
  induction hits as [|hit hits IH]; intros acc.
  - exists []. simpl. by rewrite app_nil_r.
  - rewrite for_each_cons.
    destruct (md_index (metadata hit)) as [ci|] eqn:Hci.
    + destruct (context_window_returns vectorstore num_neighbors chunk_size
                  chunk_overlap hit ci) as [t Ht].
      rewrite (retrieve_step_indexed _ _ ci t), bind_Returns by done.
      destruct (IH (acc ++ [t])) as (windows & -> & Hwindows).
      exists (t :: windows). rewrite <- app_assoc. split; [done|].
      rewrite (indexed_cons_Some _ _ ci) by done.
      constructor; [by exists ci|done].
    + rewrite retrieve_step_skipped, bind_Returns by done.
      destruct (IH acc) as (windows & -> & Hwindows).
      exists windows. split; [done|]. by rewrite indexed_cons_None.
Qed.
End retrieve.

Lemma retrieve_loop_zero_neighbors (vectorstore : VectorStore)
    (chunk_size chunk_overlap : Z) (hits : list Document) :
  ∀ result_sequences,
    for_each hits (retrieve_step vectorstore 0 chunk_size chunk_overlap) result_sequences
    = Returns (result_sequences
               ++ (page_content <$> filter (fun d => is_Some (md_index (metadata d))) hits)).
Proof.
  induction hits as [|hit hits IH]; intros acc.
  - simpl. by rewrite app_nil_r.
  - rewrite for_each_cons.
    destruct (md_index (metadata hit)) as [ci|] eqn:Hci.
    + rewrite (indexed_cons_Some _ _ ci) by done.
      rewrite (retrieve_step_indexed _ _ _ _ _ _ ci (page_content hit)) by done.
      rewrite bind_Returns, IH, fmap_cons. by rewrite <- app_assoc.
    + rewrite indexed_cons_None by done.
      rewrite retrieve_step_skipped by done. apply IH.
Qed.

(** ** A store that holds the chunks of one run of the chunker *)

Section chunk_store.
Variables (text : str) (chunk_size chunk_overlap : Z) (vectorstore : VectorStore).
Hypothesis Hstep : 0 < chunk_size - chunk_overlap.

Local Abbreviation doc := (chunk_doc text chunk_size chunk_overlap).
Local Abbreviation run := (chunk_run text chunk_size chunk_overlap).
Local Abbreviation total := (num_chunks text chunk_size chunk_overlap).

Hypothesis Hstore :
  holds_chunks vectorstore (chunk_docs text chunk_size chunk_overlap total).

(** The lookup finds chunk [t] for [0 <= t < total] and nothing else. *)
Lemma lookup_chunk (t : Z) :
  get_chunk_by_index vectorstore t
  = Returns (if bool_decide (0 ≤ t < Z.of_nat total) then Some (doc (Z.to_nat t)) else None).
Proof.
  unfold get_chunk_by_index. simpl. f_equal. unfold holds_chunks in Hstore.
  destruct (find _ _) as [d|] eqn:Hfind.
  - apply find_some in Hfind as [Hin Hmatch].
    apply index_matches_spec in Hmatch.
    apply list_elem_of_In in Hin. rewrite Hstore in Hin.
    apply elem_of_chunk_docs in Hin as (i & -> & Hi). simpl in Hmatch.
    injection Hmatch as <-.
    rewrite bool_decide_eq_true_2 by lia. by rewrite Nat2Z.id.
  - case_bool_decide as Ht; [|done]. exfalso.
    assert (doc (Z.to_nat t) ∈ chunk_docs text chunk_size chunk_overlap total) as Hin
      by (apply elem_of_chunk_docs; exists (Z.to_nat t); split; [done|lia]).
    rewrite <- Hstore in Hin. apply list_elem_of_In in Hin.
    pose proof (find_none _ _ Hfind _ Hin) as Hmiss.
    assert (index_matches t (doc (Z.to_nat t)) = true) as Hhit
      by (apply index_matches_spec; simpl; f_equal; lia).
    congruence.
Qed.

(** One round at distance [S m] widens the run by the chunks that exist. *)
Lemma add_neighbors_run (h m : nat) :
  (h < total)%nat →
  add_neighbors vectorstore (Z.of_nat h)
    (run (h - m) (S ((h + m) `min` (total - 1) - (h - m)))) (1 + Z.of_nat m)
  = Returns (run (h - S m) (S ((h + S m) `min` (total - 1) - (h - S m)))).
Proof.
  intros Hh. unfold add_neighbors. rewrite !lookup_chunk, !bind_Returns.
  unfold mret, outcome_ret. f_equal.
  case_bool_decide as Hnext; case_bool_decide as Hprev.
  - replace (Z.to_nat (Z.of_nat h - (1 + Z.of_nat m))) with (h - S m)%nat by lia.
    replace (Z.to_nat (Z.of_nat h + (1 + Z.of_nat m))) with (h + S m)%nat by lia.
    replace (h - m)%nat with (S (h - S m)) by lia.
    rewrite <- chunk_run_cons.
    replace (S ((h + S m) `min` (total - 1) - (h - S m)))
      with (S (S (S ((h + m) `min` (total - 1) - S (h - S m))))) by lia.
    rewrite (chunk_run_S _ _ _ _ (S (S _))). do 3 f_equal. lia.
  - replace (Z.to_nat (Z.of_nat h + (1 + Z.of_nat m))) with (h + S m)%nat by lia.
    replace (h - S m)%nat with (h - m)%nat by lia.
    replace (S ((h + S m) `min` (total - 1) - (h - m)))
      with (S (S ((h + m) `min` (total - 1) - (h - m)))) by lia.
    rewrite (chunk_run_S _ _ _ _ (S _)). do 3 f_equal. lia.
  - replace (Z.to_nat (Z.of_nat h - (1 + Z.of_nat m))) with (h - S m)%nat by lia.
    replace (h - m)%nat with (S (h - S m)) by lia.
    rewrite <- chunk_run_cons. f_equal. lia.
  - f_equal; lia.
Qed.

(** After the rounds [1 .. m] the working set is the run of the chunks
    within distance [m] of the hit, already in order. *)
Lemma neighbors_of_chunk (h m : nat) :
  (h < total)%nat →
  for_each (py_range 1 (1 + Z.of_nat m)) (add_neighbors vectorstore (Z.of_nat h)) [doc h]
  = Returns (run (h - m) (S ((h + m) `min` (total - 1) - (h - m)))).
Proof.
  intros Hh. induction m as [|m IH].
  - simpl. rewrite Nat.sub_0_r, Nat.add_0_r.
    replace (h `min` (total - 1) - h)%nat with 0%nat by lia. done.
  - rewrite py_range_S, for_each_snoc, IH, bind_Returns.
    by apply add_neighbors_run.
Qed.

(** A run of chunks is sorted by index. *)
Lemma sort_chunk_run (n : nat) : ∀ lo, sort_by_key (run lo n) = run lo n.
Proof.
  induction n as [|n IH]; intros lo; [done|].
  rewrite chunk_run_cons. simpl. rewrite IH.
  destruct n as [|n]; [done|]. rewrite chunk_run_cons. simpl.
  unfold sort_key. simpl.
  destruct (Z.leb_spec (Z.of_nat lo) (Z.of_nat (S lo))); [done|lia].
Qed.

(** The window of the hit [h]: the run of its neighbours, concatenated
    with the step in the place of the overlap. *)
Lemma context_window_chunk_store (num_neighbors : Z) (h : nat) :
  (h < total)%nat →
  let m := Z.to_nat num_neighbors in
  context_window vectorstore num_neighbors chunk_size chunk_overlap (doc h) (Z.of_nat h)
  = Returns (concat_dropping_overlap (chunk_size - chunk_overlap)
               (run (h - m) (S ((h + m) `min` (total - 1) - (h - m))))).
Proof.
  intros Hh m. unfold context_window.
  replace (py_range 1 (num_neighbors + 1)) with (py_range 1 (1 + Z.of_nat m))
    by (unfold py_range, seqZ; do 2 f_equal; lia).
  rewrite neighbors_of_chunk, bind_Returns, sort_chunk_run by done.
  rewrite chunk_run_cons. apply concatenate_dropping_step. lia.
Qed.
End chunk_store.

(** * The claims *)

(** ** C1 *)

(** C1, on the text ["abcdefg"] with [chunk_size = 3] and
    [chunk_overlap = 1].  The chunks are ["abc"], ["cde"], ["efg"] and
    ["g"].  The code's concatenation drops the first
    [chunk_size - chunk_overlap = 2] characters of every later chunk where
    one character is shared, and gives ["abceg"], not the text; dropping
    [chunk_overlap] characters gives the text. *)
Theorem concatenate_all_chunks_loses_text :
  valid_parameters 3 1
  ∧ ∃ chunks,
      split_text_to_chunks_with_indices 8 (lit "abcdefg") 3 1 = Returns chunks
      ∧ map page_content chunks = [lit "abc"; lit "cde"; lit "efg"; lit "g"]
      ∧ concatenate 3 1 chunks = Returns (lit "abceg")
      ∧ lit "abceg" ≠ lit "abcdefg"
      ∧ concat_dropping_overlap 1 chunks = lit "abcdefg".
Proof.
  split; [unfold valid_parameters; lia|].
  eexists. split; [reflexivity|].
  split; [reflexivity|]. split; [reflexivity|]. split; [discriminate|reflexivity].
Qed.

(** ** C2 *)

(** C2.  For every text and valid parameters the chunker returns, and the
    concatenation of all its chunks in emission order, each chunk after the
    first without its leading [chunk_overlap] characters, is the text. *)
Theorem chunks_round_trip (text : str) (chunk_size chunk_overlap : Z) (fuel : nat) :
  valid_parameters chunk_size chunk_overlap →
  (length text < fuel)%nat →
  ∃ chunks,
    split_text_to_chunks_with_indices fuel text chunk_size chunk_overlap = Returns chunks
    ∧ concat_dropping_overlap chunk_overlap chunks = text.
Proof.
  intros Hvalid Hfuel. pose proof (valid_step _ _ Hvalid) as Hstep.
  eexists. split; [by apply split_returns|].
  destruct (num_chunks text chunk_size chunk_overlap) as [|n] eqn:Hn.
  - destruct text as [|c text]; [done|].
    pose proof (num_chunks_pos (c :: text) _ _ Hstep ltac:(done)). lia.
  - unfold chunk_docs. rewrite concat_dropping_overlap_run by done.
    rewrite drop_0. apply take_ge. by apply chunks_cover.
Qed.

Lemma chunks_round_trip_witness :
  ∃ chunks,
    split_text_to_chunks_with_indices 8 (lit "abcdefg") 3 1 = Returns chunks
    ∧ concat_dropping_overlap 1 chunks = lit "abcdefg".
Proof.
  apply (chunks_round_trip (lit "abcdefg") 3 1 8).
  - unfold valid_parameters. lia.
  - simpl. lia.
Defined.

(** ** C3 *)

(** C3, as it holds of the code.  The chunker checks nothing and raises
    nothing, whatever its arguments.  Under the precondition
    [chunk_size > 0] and [0 <= chunk_overlap < chunk_size] it returns, as it
    does whenever the step [chunk_size - chunk_overlap] is positive or the
    text is empty; with a non-positive step and a non-empty text the loop
    does not end. *)
Theorem chunker_outcomes (text : str) (chunk_size chunk_overlap : Z) :
  (∀ fuel exc,
     split_text_to_chunks_with_indices fuel text chunk_size chunk_overlap ≠ Raises exc)
  ∧ (valid_parameters chunk_size chunk_overlap →
     ∃ chunks, ∀ fuel,
       (length text < fuel)%nat →
       split_text_to_chunks_with_indices fuel text chunk_size chunk_overlap
       = Returns chunks)
  ∧ (0 < chunk_size - chunk_overlap ∨ text = [] →
     ∃ chunks, ∀ fuel,
       (length text < fuel)%nat →
       split_text_to_chunks_with_indices fuel text chunk_size chunk_overlap
       = Returns chunks)
  ∧ (chunk_size - chunk_overlap ≤ 0 → text ≠ [] →
     ∀ fuel,
       split_text_to_chunks_with_indices fuel text chunk_size chunk_overlap
       = OutOfFuel).
Proof.
  repeat split.
  - intros fuel exc. apply split_loop_never_raises.
  - intros Hvalid. eexists. intros fuel Hfuel.
    apply split_returns; [by apply valid_step|done].
  - intros [Hstep| ->].
    + eexists. intros fuel Hfuel. by apply split_returns.
    + exists []. intros [|fuel] Hfuel; [simpl in Hfuel; lia|done].
  - intros Hstep Htext fuel. by apply split_spins.
Qed.

Lemma chunker_outcomes_witness :
  ∃ chunks, ∀ fuel,
    (length (lit "ab") < fuel)%nat →
    split_text_to_chunks_with_indices fuel (lit "ab") 2 1 = Returns chunks.
Proof.
  apply (chunker_outcomes (lit "ab") 2 1).
  unfold valid_parameters. lia.
Defined.

(** With [chunk_size = 0] and [chunk_overlap = -1] the chunker returns two
    empty chunks for the text ["ab"]; with [chunk_size = chunk_overlap = 1]
    it loops.  Neither call fails with [ConfigError]. *)
Lemma no_config_error :
  (0 ≤ 0
   ∧ (∃ chunks,
        split_text_to_chunks_with_indices 3 (lit "ab") 0 (-1) = Returns chunks
        ∧ map page_content chunks = [[]; []])
   ∧ ¬ fails_with_config_error (lit "ab") 0 (-1))
  ∧ (1 ≥ 1
     ∧ (∀ fuel, split_text_to_chunks_with_indices fuel (lit "ab") 1 1 = OutOfFuel)
     ∧ ¬ fails_with_config_error (lit "ab") 1 1).
Proof.
  repeat split; try lia.
  - eexists. split; reflexivity.
  - intros [fuel Hfuel]. by apply split_loop_never_raises in Hfuel.
  - intros fuel. apply split_spins; [lia|discriminate].
  - intros [fuel Hfuel]. by apply split_loop_never_raises in Hfuel.
Qed.

(** ** C4 *)

(** C4, as it holds of the code.  For every text and valid parameters the
    chunker returns [ceil (len text / (chunk_size - chunk_overlap))] chunks:
    one for every start offset [0, step, 2 * step, ...] below the length of
    the text, and none for the empty text. *)
Theorem chunk_count (text : str) (chunk_size chunk_overlap : Z) (fuel : nat) :
  valid_parameters chunk_size chunk_overlap →
  (length text < fuel)%nat →
  ∃ chunks,
    split_text_to_chunks_with_indices fuel text chunk_size chunk_overlap = Returns chunks
    ∧ len chunks = ceil_div (len text) (chunk_size - chunk_overlap).
Proof.
  intros Hvalid Hfuel. pose proof (valid_step _ _ Hvalid) as Hstep.
  eexists. split; [by apply split_returns|].
  unfold len at 1, chunk_docs. rewrite length_chunk_run. by apply num_chunks_spec.
Qed.

Lemma chunk_count_witness :
  ∃ chunks,
    split_text_to_chunks_with_indices 4 (lit "abc") 3 1 = Returns chunks
    ∧ len chunks = ceil_div (len (lit "abc")) (3 - 1).
Proof.
  apply (chunk_count (lit "abc") 3 1 4).
  - unfold valid_parameters. lia.
  - simpl. lia.
Defined.

(** The count law fails in both of its branches: a text of three characters
    with [chunk_size = 3] and [chunk_overlap = 1] gives two chunks where the
    law says one, and with [chunk_size = 2] and [chunk_overlap = 1] it gives
    three where the law says two. *)
Lemma count_law_fails :
  (valid_parameters 3 1
   ∧ ∃ chunks,
       split_text_to_chunks_with_indices 4 (lit "abc") 3 1 = Returns chunks
       ∧ len chunks = 2 ∧ count_law (len (lit "abc")) 3 1 = 1
       ∧ len chunks ≠ count_law (len (lit "abc")) 3 1)
  ∧ (valid_parameters 2 1
     ∧ ∃ chunks,
         split_text_to_chunks_with_indices 4 (lit "abc") 2 1 = Returns chunks
         ∧ len chunks = 3 ∧ count_law (len (lit "abc")) 2 1 = 2
         ∧ len chunks ≠ count_law (len (lit "abc")) 2 1).
Proof.
  split; (split; [unfold valid_parameters; lia|]); eexists;
    (split; [reflexivity|]); (split; [reflexivity|]); (split; [reflexivity|]);
    vm_compute; discriminate.
Qed.

(** The scenario of the specification: a text of 500 characters with the
    sizes 200 and 100 gives five chunks, the law says four. *)
Lemma count_law_fails_on_scenario (text : str) :
  len text = 500 →
  ∃ chunks,
    split_text_to_chunks_with_indices 501 text 200 100 = Returns chunks
    ∧ len chunks = 5
    ∧ count_law (len text) 200 100 = 4.
Proof.
  intros Hlen. eexists. split; [apply split_returns; unfold len in Hlen; lia|].
  unfold len at 1, chunk_docs. rewrite length_chunk_run, num_chunks_spec by lia.
  by rewrite Hlen.
Qed.

(** ** C5 *)

(** C5, as it holds of the code.  For a non-empty text shorter than
    [chunk_size] the first chunk is the whole text; it is the only chunk
    exactly when the text is no longer than the step
    [chunk_size - chunk_overlap].  Otherwise further chunks follow, and
    they are suffixes of the text: the chunk at position [i] is the
    non-empty rest of the text from offset [i * step] on, with index [i],
    and there are [ceil (len text / step)] chunks in all. *)
Theorem short_text_first_chunk (text : str) (chunk_size chunk_overlap : Z) (fuel : nat) :
  valid_parameters chunk_size chunk_overlap →
  text ≠ [] →
  len text < chunk_size →
  (length text < fuel)%nat →
  ∃ first rest,
    split_text_to_chunks_with_indices fuel text chunk_size chunk_overlap
    = Returns (first :: rest)
    ∧ page_content first = text
    ∧ (rest = [] ↔ len text ≤ chunk_size - chunk_overlap)
    ∧ (∀ (i : nat) (d : Document),
         (first :: rest) !! i = Some d →
         page_content d = drop (i * Z.to_nat (chunk_size - chunk_overlap)) text
         ∧ page_content d ≠ []
         ∧ md_index (metadata d) = Some (Z.of_nat i))
    ∧ len (first :: rest) = ceil_div (len text) (chunk_size - chunk_overlap).
Proof.
  intros Hvalid Htext Hshort Hfuel. pose proof (valid_step _ _ Hvalid) as Hstep.
  destruct Hvalid as [Hsize Hover]. rewrite split_returns by done.
  pose proof (num_chunks_pos text _ _ Hstep Htext) as Hpos.
  pose proof (lt_num_chunks text _ _ Hstep 1) as Hsecond.
  pose proof (lt_num_chunks text _ _ Hstep) as Hwithin.
  pose proof (num_chunks_spec text _ _ Hstep) as Hcount.
  destruct (num_chunks text chunk_size chunk_overlap) as [|n]; [lia|].
  unfold chunk_docs. rewrite chunk_run_cons. do 2 eexists. split; [done|].
  assert (∀ i : nat,
            page_content (chunk_doc text chunk_size chunk_overlap i)
            = drop (i * Z.to_nat (chunk_size - chunk_overlap)) text) as Hsuffix.
  { intros i. rewrite page_content_chunk_doc by (done || lia).
    apply take_ge. rewrite length_drop. unfold len in Hshort. lia. }
  split; [by rewrite Hsuffix, drop_0|]. split.
  - destruct n as [|n]; simpl; split; try done; lia.
  - split.
    + intros i d Hi. rewrite <- chunk_run_cons in Hi.
      apply lookup_chunk_run in Hi as [-> Hlt]. simpl plus.
      split; [apply Hsuffix|]. split; [|done].
      rewrite Hsuffix. apply Hwithin in Hlt.
      intros Hnil. apply (f_equal length) in Hnil.
      rewrite length_drop in Hnil. simpl in Hnil.
      pose proof (of_nat_mul_to_nat i (chunk_size - chunk_overlap) ltac:(lia)).
      unfold len in Hlt. lia.
    + rewrite <- chunk_run_cons. unfold len at 1. by rewrite length_chunk_run.
Qed.

Lemma short_text_first_chunk_witness :
  ∃ first rest,
    split_text_to_chunks_with_indices 3 (lit "ab") 3 2 = Returns (first :: rest)
    ∧ page_content first = lit "ab"
    ∧ (rest = [] ↔ len (lit "ab") ≤ 3 - 2)
    ∧ (∀ (i : nat) (d : Document),
         (first :: rest) !! i = Some d →
         page_content d = drop (i * Z.to_nat (3 - 2)) (lit "ab")
         ∧ page_content d ≠ []
         ∧ md_index (metadata d) = Some (Z.of_nat i))
    ∧ len (first :: rest) = ceil_div (len (lit "ab")) (3 - 2).
Proof.
  apply (short_text_first_chunk (lit "ab") 3 2 3).
  - unfold valid_parameters. lia.
  - discriminate.
  - vm_compute. reflexivity.
  - simpl. lia.
Defined.

(** A text of two characters with [chunk_size = 3] and [chunk_overlap = 2]
    is shorter than a chunk and still gives two chunks, ["ab"] and ["b"]. *)
Lemma short_text_two_chunks :
  lit "ab" ≠ [] ∧ len (lit "ab") < 3 ∧ valid_parameters 3 2
  ∧ ∃ chunks,
      split_text_to_chunks_with_indices 3 (lit "ab") 3 2 = Returns chunks
      ∧ map page_content chunks = [lit "ab"; lit "b"]
      ∧ ¬ one_chunk_spanning (lit "ab") chunks.
Proof.
  split; [discriminate|]. split; [reflexivity|].
  split; [unfold valid_parameters; lia|].
  eexists. split; [reflexivity|]. split; [reflexivity|].
  intros (c & Hc & _). discriminate Hc.
Qed.

(** ** C6 *)

(** C6, as it holds of the code.  Chunk [i] has
    [min chunk_size (len text - i * step)] characters, which is at least
    one and at most [chunk_size]; it is a full chunk exactly when
    [i * step + chunk_size] does not pass the end of the text. *)
Theorem chunk_lengths (text : str) (chunk_size chunk_overlap : Z) (fuel : nat) :
  valid_parameters chunk_size chunk_overlap →
  (length text < fuel)%nat →
  ∃ chunks,
    split_text_to_chunks_with_indices fuel text chunk_size chunk_overlap = Returns chunks
    ∧ ∀ (i : nat) (d : Document),
        chunks !! i = Some d →
        let offset := Z.of_nat i * (chunk_size - chunk_overlap) in
        len (page_content d) = Z.min chunk_size (len text - offset)
        ∧ 1 ≤ len (page_content d) ≤ chunk_size
        ∧ (len (page_content d) = chunk_size ↔ offset + chunk_size ≤ len text).
Proof.
  intros Hvalid Hfuel. pose proof (valid_step _ _ Hvalid) as Hstep.
  destruct Hvalid as [Hsize Hover].
  eexists. split; [by apply split_returns|].
  intros i d [-> Hi]%lookup_chunk_run offset.
  apply lt_num_chunks in Hi; [|done]. simpl in Hi. fold offset in Hi.
  rewrite length_chunk_doc by lia. simpl. fold offset. lia.
Qed.

Lemma chunk_lengths_witness :
  ∃ chunks,
    split_text_to_chunks_with_indices 5 (lit "abcd") 3 2 = Returns chunks
    ∧ ∀ (i : nat) (d : Document),
        chunks !! i = Some d →
        let offset := Z.of_nat i * (3 - 2) in
        len (page_content d) = Z.min 3 (len (lit "abcd") - offset)
        ∧ 1 ≤ len (page_content d) ≤ 3
        ∧ (len (page_content d) = 3 ↔ offset + 3 ≤ len (lit "abcd")).
Proof.
  apply (chunk_lengths (lit "abcd") 3 2 5).
  - unfold valid_parameters. lia.
  - simpl. lia.
Defined.

(** With [chunk_size = 3] and [chunk_overlap = 2] the text ["abcd"] gives
    the four chunks ["abc"], ["bcd"], ["cd"] and ["d"]; the third one is not
    the last and has two characters. *)
Lemma short_chunk_before_last :
  valid_parameters 3 2
  ∧ ∃ chunks,
      split_text_to_chunks_with_indices 5 (lit "abcd") 3 2 = Returns chunks
      ∧ map page_content chunks = [lit "abc"; lit "bcd"; lit "cd"; lit "d"]
      ∧ ¬ only_last_shorter 3 chunks.
Proof.
  split; [unfold valid_parameters; lia|].
  eexists. split; [reflexivity|]. split; [reflexivity|].
  intros Hclaim. destruct (Hclaim 2%nat _ eq_refl) as [_ Hfull].
  specialize (Hfull ltac:(simpl; lia)). discriminate Hfull.
Qed.

(** ** C7 *)

(** With the overlap half the chunk size, and a store that holds the
    chunks of the text, the window of the hit [h] is the span of the text
    from the start of the lowest chunk within [num_neighbors] of it to the
    end of the highest. *)
Lemma context_window_span_half_overlap (text : str) (chunk_overlap : Z)
    (vectorstore : VectorStore) (num_neighbors : Z) (h : nat) :
  let chunk_size := 2 * chunk_overlap in
  let total := num_chunks text chunk_size chunk_overlap in
  let lo := (h - Z.to_nat num_neighbors)%nat in
  let hi := ((h + Z.to_nat num_neighbors) `min` (total - 1))%nat in
  0 < chunk_overlap →
  holds_chunks vectorstore (chunk_docs text chunk_size chunk_overlap total) →
  (h < total)%nat →
  context_window vectorstore num_neighbors chunk_size chunk_overlap
    (chunk_doc text chunk_size chunk_overlap h) (Z.of_nat h)
  = Returns (py_slice text
               (Z.of_nat lo * (chunk_size - chunk_overlap))
               (Z.of_nat hi * (chunk_size - chunk_overlap)
                + len (page_content (chunk_doc text chunk_size chunk_overlap hi)))).
Proof.
  intros chunk_size total lo hi Hover Hstore Hh.
  assert (valid_parameters chunk_size chunk_overlap) as Hvalid
    by (unfold valid_parameters, chunk_size; lia).
  pose proof (valid_step _ _ Hvalid) as Hstep.
  rewrite (context_window_chunk_store text chunk_size chunk_overlap) by done.
  f_equal.
  pose proof (span_of_run text chunk_size chunk_overlap Hvalid lo (hi - lo)) as Hspan.
  replace (lo + (hi - lo))%nat with hi in Hspan by lia.
  rewrite Hspan by (fold total; lia).
  replace (chunk_size - chunk_overlap) with chunk_overlap at 1
    by (unfold chunk_size; lia).
  by apply concat_dropping_overlap_run.
Qed.

(** C7, on the text ["abcdefg"] with [chunk_size = 3] and
    [chunk_overlap = 1].  The store holds the four chunks; the query has
    the one hit ["cde"], of index 1, and both its neighbours at distance 1
    exist.  The window should be the text from offset [0 * 2] to offset
    [2 * 2 + 3], that is all of it; the code returns ["abceg"]. *)
Theorem context_window_loses_text :
  valid_parameters 3 1
  ∧ ∃ chunks hit,
      split_text_to_chunks_with_indices 8 (lit "abcdefg") 3 1 = Returns chunks
      ∧ similarity_search (store_of chunks) (lit "d") 2 = [hit]
      ∧ md_index (metadata hit) = Some 1
      ∧ map page_content chunks = [lit "abc"; lit "cde"; lit "efg"; lit "g"]
      ∧ (∃ prev next,
           get_chunk_by_index (store_of chunks) (1 - 1) = Returns (Some prev)
           ∧ md_index (metadata prev) = Some 0
           ∧ get_chunk_by_index (store_of chunks) (1 + 1) = Returns (Some next)
           ∧ md_index (metadata next) = Some 2
           ∧ py_slice (lit "abcdefg") (0 * (3 - 1)) (2 * (3 - 1) + len (page_content next))
             = lit "abcdefg")
      ∧ retrieve_with_context_overlap (store_of chunks) (lit "d") 2 1 3 1
        = Returns [lit "abceg"]
      ∧ lit "abceg" ≠ lit "abcdefg".
Proof.
  split; [unfold valid_parameters; lia|].
  do 2 eexists. split; [reflexivity|]. split; [reflexivity|].
  split; [reflexivity|]. split; [reflexivity|]. split.
  - do 2 eexists. split; [reflexivity|]. split; [reflexivity|].
    split; [reflexivity|]. split; reflexivity.
  - split; [reflexivity|discriminate].
Qed.

(** ** C8 *)

(** C8.  With [num_neighbors = 0] the window of a hit is the hit's own
    text, whatever the store holds and whatever [chunk_size] and
    [chunk_overlap] are; so the retrieval returns the texts of the hits
    that have an index. *)
Theorem zero_neighbors_identity (vectorstore : VectorStore)
    (chunk_size chunk_overlap : Z) :
  (∀ (chunk : Document) (current_index : Z),
     context_window vectorstore 0 chunk_size chunk_overlap chunk current_index
     = Returns (page_content chunk))
  ∧ (∀ (query : str) (k : Z),
       retrieve_with_context_overlap vectorstore query k 0 chunk_size chunk_overlap
       = Returns (page_content <$>
                    filter (fun d => is_Some (md_index (metadata d)))
                           (similarity_search vectorstore query k))).
Proof.
  split; [done|].
  intros query k. apply retrieve_loop_zero_neighbors.
Qed.

(** ** C9 *)

(** C9.  The retrieval raises nothing and returns one window for every hit
    that has an index, in the order of the hits; the hits without an index
    leave no trace.  So there are as many windows as hits with an index,
    and at most [k] when the search keeps to its contract of at most [k]
    hits. *)
Theorem retrieve_one_window_per_indexed_hit (vectorstore : VectorStore)
    (query : str) (k num_neighbors chunk_size chunk_overlap : Z) :
  let hits := similarity_search vectorstore query k in
  let indexed := filter (fun d => is_Some (md_index (metadata d))) hits in
  ∃ windows,
    retrieve_with_context_overlap vectorstore query k num_neighbors chunk_size chunk_overlap
    = Returns windows
    ∧ Forall2 (window_of vectorstore num_neighbors chunk_size chunk_overlap) indexed windows
    ∧ length windows = length indexed
    ∧ (len hits ≤ k → len windows ≤ k).
Proof.
  intros hits indexed.
  destruct (retrieve_loop vectorstore num_neighbors chunk_size chunk_overlap hits [])
    as (windows & Hret & Hwindows).
  exists windows. split; [done|]. split; [done|].
  pose proof (Forall2_length _ _ _ Hwindows) as Hlen.
  split; [done|]. intros Hk.
  pose proof (length_filter (fun d => is_Some (md_index (metadata d))) hits) as Hfil.
  subst indexed. unfold len in *. lia.
Qed.

(** Two hits for the query, the second one without an index: one window. *)
Lemma retrieve_one_window_per_indexed_hit_witness :
  map page_content (similarity_search (store_of example_docs) (lit "d") 2)
  = [lit "cde"; lit "xd"]
  ∧ ∃ windows,
      retrieve_with_context_overlap (store_of example_docs) (lit "d") 2 1 3 1
      = Returns windows
      ∧ length windows = 1%nat
      ∧ len windows ≤ 2.
Proof.
  split; [reflexivity|].
  destruct (retrieve_one_window_per_indexed_hit (store_of example_docs) (lit "d") 2 1 3 1)
    as (windows & Hret & _ & Hlen & Hk).
  exists windows. split; [exact Hret|]. split; [exact Hlen|].
  apply Hk. vm_compute. discriminate.
Defined.

(** ** C10 *)

(** C10.  The lookup raises nothing.  It returns [None] when no document
    of the store has the target as its index, and otherwise a document of
    the store whose index is the target.  In a store that holds the chunks
    of one run of the chunker, in any order, there is no chunk for a
    negative index or for an index at or beyond the number of chunks. *)
Theorem get_chunk_by_index_spec (vectorstore : VectorStore) (target_index : Z) :
  let all_docs := similarity_search vectorstore [] (index_ntotal vectorstore) in
  (∃ found, get_chunk_by_index vectorstore target_index = Returns found)
  ∧ ((∀ d, d ∈ all_docs → md_index (metadata d) ≠ Some target_index) →
     get_chunk_by_index vectorstore target_index = Returns None)
  ∧ ((∃ d, d ∈ all_docs ∧ md_index (metadata d) = Some target_index) →
     ∃ d, get_chunk_by_index vectorstore target_index = Returns (Some d)
          ∧ d ∈ all_docs ∧ md_index (metadata d) = Some target_index)
  ∧ (∀ fuel text chunk_size chunk_overlap chunks,
       split_text_to_chunks_with_indices fuel text chunk_size chunk_overlap
       = Returns chunks →
       holds_chunks vectorstore chunks →
       target_index < 0 ∨ len chunks ≤ target_index →
       get_chunk_by_index vectorstore target_index = Returns None).
Proof.
  intros all_docs.
  assert ((∀ d, d ∈ all_docs → md_index (metadata d) ≠ Some target_index) →
          get_chunk_by_index vectorstore target_index = Returns None) as Hnone.
  { intros Hno. unfold get_chunk_by_index. fold all_docs.
    destruct (find (index_matches target_index) all_docs) as [d|] eqn:Hfind; [|done].
    apply find_some in Hfind as [Hin Hmatch].
    apply index_matches_spec in Hmatch. apply list_elem_of_In in Hin.
    by destruct (Hno d Hin). }
  split; [by eexists|]. split; [done|]. split.
  - intros (d & Hin & Hd). unfold get_chunk_by_index. fold all_docs.
    destruct (find (index_matches target_index) all_docs) as [d'|] eqn:Hfind.
    + apply find_some in Hfind as [Hin' Hmatch].
      exists d'. split; [done|]. split; [by apply list_elem_of_In|].
      by apply index_matches_spec.
    + apply list_elem_of_In in Hin.
      pose proof (find_none _ _ Hfind d Hin) as Hmiss.
      apply index_matches_spec in Hd. congruence.
  - intros fuel text chunk_size chunk_overlap chunks Hrun Hperm Hout.
    apply Hnone. intros d Hin Hd. unfold holds_chunks in Hperm. fold all_docs in Hperm.
    rewrite Hperm in Hin. apply list_elem_of_lookup in Hin as [i Hi].
    pose proof (lookup_lt_Some _ _ _ Hi) as Hlt.
    rewrite (split_indices _ _ _ _ _ _ _ Hrun Hi) in Hd.
    unfold len in Hout. injection Hd as <-. lia.
Qed.

(** The four chunks of ["abcdefg"]: nothing at index 4. *)
Lemma get_chunk_by_index_spec_witness :
  get_chunk_by_index (store_of (chunk_docs (lit "abcdefg") 3 1 4)) 4 = Returns None.
Proof.
  apply (proj2 (proj2 (proj2 (get_chunk_by_index_spec
                                (store_of (chunk_docs (lit "abcdefg") 3 1 4)) 4)))
           8%nat (lit "abcdefg") 3 1 (chunk_docs (lit "abcdefg") 3 1 4)).
  - reflexivity.
  - unfold holds_chunks. reflexivity.
  - right. vm_compute. discriminate.
Defined.

(** * Further properties *)

(** ** The chunker *)

Section chunker_positions.
Variables (text : str) (chunk_size chunk_overlap : Z).

Local Abbreviation step := (chunk_size - chunk_overlap).
Local Abbreviation docs := (chunk_docs text chunk_size chunk_overlap).

(** Whatever the parameters, what the loop returns is a run of chunks in
    closed form. *)
Lemma split_loop_chunk_docs (fuel : nat) :
  ∀ (k : nat) result,
    split_loop fuel text chunk_size chunk_overlap (Z.of_nat k * step) (docs k)
    = Returns result →
    ∃ n, result = docs n.
Proof.
  induction fuel as [|fuel IH]; intros k result Hrun; [done|]. simpl in Hrun.
  destruct (Z.of_nat k * step <? len text).
  - unfold len at 1, chunk_docs in Hrun. rewrite length_chunk_run in Hrun.
    change (mkDocument _ _) with (chunk_doc text chunk_size chunk_overlap (0 + k)%nat) in Hrun.
    rewrite <- chunk_run_S in Hrun.
    replace (Z.of_nat k * step + step) with (Z.of_nat (S k) * step) in Hrun by lia.
    by apply (IH (S k)).
  - injection Hrun as <-. by exists k.
Qed.

Lemma split_chunk_docs (fuel : nat) (chunks : list Document) :
  split_text_to_chunks_with_indices fuel text chunk_size chunk_overlap = Returns chunks →
  ∃ n, chunks = docs n.
Proof. apply (split_loop_chunk_docs fuel 0%nat). Qed.
End chunker_positions.

(** X1.  Whenever the chunker returns, whatever its parameters, the chunk
    at position [i] is the slice of the text that starts at [i * step] and
    is [chunk_size] long (clipped to the text), its index is [i] and its
    metadata holds the whole text: the indices are [0, 1, 2, ...] without
    a gap, and the offset of a chunk is its index times the step. *)
Theorem chunk_at_position (text : str) (chunk_size chunk_overlap : Z) (fuel : nat)
    (chunks : list Document) (i : nat) (d : Document) :
  split_text_to_chunks_with_indices fuel text chunk_size chunk_overlap = Returns chunks →
  chunks !! i = Some d →
  page_content d
  = py_slice text (Z.of_nat i * (chunk_size - chunk_overlap))
             (Z.of_nat i * (chunk_size - chunk_overlap) + chunk_size)
  ∧ md_index (metadata d) = Some (Z.of_nat i)
  ∧ md_text (metadata d) = Some text.
Proof.
  intros [n ->]%split_chunk_docs Hi.
  apply (lookup_chunk_run _ _ _ 0) in Hi as [-> _]. done.
Qed.

Lemma chunk_at_position_witness :
  page_content (mkDocument (lit "cde") (mkMetadata (Some 1) (Some (lit "abcdefg"))))
  = py_slice (lit "abcdefg") (Z.of_nat 1 * (3 - 1)) (Z.of_nat 1 * (3 - 1) + 3)
  ∧ md_index (metadata (mkDocument (lit "cde") (mkMetadata (Some 1) (Some (lit "abcdefg")))))
    = Some (Z.of_nat 1)
  ∧ md_text (metadata (mkDocument (lit "cde") (mkMetadata (Some 1) (Some (lit "abcdefg")))))
    = Some (lit "abcdefg").
Proof.
  apply (chunk_at_position (lit "abcdefg") 3 1 8
           (chunk_docs (lit "abcdefg") 3 1 4) 1); reflexivity.
Defined.

(** X2.  Under valid parameters two consecutive chunks overlap as meant:
    what is left of a chunk after its first [chunk_size - chunk_overlap]
    characters is the first [chunk_overlap] characters of the next chunk
    (all of the next chunk, when that one is shorter). *)
Theorem consecutive_chunks_overlap (text : str) (chunk_size chunk_overlap : Z)
    (fuel : nat) (chunks : list Document) (i : nat) (c c' : Document) :
  valid_parameters chunk_size chunk_overlap →
  split_text_to_chunks_with_indices fuel text chunk_size chunk_overlap = Returns chunks →
  chunks !! i = Some c →
  chunks !! S i = Some c' →
  drop (Z.to_nat (chunk_size - chunk_overlap)) (page_content c)
  = take (Z.to_nat chunk_overlap) (page_content c').
Proof.
  intros Hvalid [n ->]%split_chunk_docs Hc Hc'.
  pose proof (valid_step _ _ Hvalid) as Hstep.
  pose proof (valid_size _ _ Hvalid) as Hsize.
  apply (lookup_chunk_run _ _ _ 0) in Hc as [-> _].
  apply (lookup_chunk_run _ _ _ 0) in Hc' as [-> _]. simpl plus.
  rewrite !page_content_chunk_doc by done.
  rewrite (size_overlap_stride _ _ Hvalid).
  rewrite (Nat.add_comm (Z.to_nat chunk_overlap)) at 1.
  rewrite drop_take_window, drop_drop, take_take.
  f_equal; [lia|]. f_equal. lia.
Qed.

Lemma consecutive_chunks_overlap_witness :
  drop (Z.to_nat (3 - 1)) (lit "abc") = take (Z.to_nat 1) (lit "cde").
Proof.
  apply (consecutive_chunks_overlap (lit "abcdefg") 3 1 8
           (chunk_docs (lit "abcdefg") 3 1 4) 0
           (chunk_doc (lit "abcdefg") 3 1 0) (chunk_doc (lit "abcdefg") 3 1 1));
    [unfold valid_parameters; lia|reflexivity..].
Defined.

(** X3.  Under valid parameters the last chunk is the rest of the text
    from its offset on: the end of the text is never cut off. *)
Theorem last_chunk_reaches_end (text : str) (chunk_size chunk_overlap : Z)
    (fuel : nat) (chunks : list Document) (d : Document) :
  valid_parameters chunk_size chunk_overlap →
  split_text_to_chunks_with_indices fuel text chunk_size chunk_overlap = Returns chunks →
  last chunks = Some d →
  page_content d
  = drop ((length chunks - 1) * Z.to_nat (chunk_size - chunk_overlap)) text.
Proof.
  intros Hvalid Hrun Hlast.
  pose proof (valid_step _ _ Hvalid) as Hstep.
  pose proof (valid_size _ _ Hvalid) as Hsize.
  apply (split_returns_inv _ _ _ Hstep) in Hrun as ->.
  destruct (num_chunks text chunk_size chunk_overlap) as [|n] eqn:Hn; [done|].
  unfold chunk_docs in *. rewrite chunk_run_S, last_snoc in Hlast.
  injection Hlast as <-. rewrite length_chunk_run. simpl plus.
  rewrite page_content_chunk_doc by done.
  replace (S n - 1)%nat with n by lia.
  apply take_ge. rewrite length_drop.
  pose proof (chunks_cover _ _ _ Hvalid n Hn). lia.
Qed.

Lemma last_chunk_reaches_end_witness :
  page_content (chunk_doc (lit "abcdefgh") 3 1 3)
  = drop ((length (chunk_docs (lit "abcdefgh") 3 1 4) - 1) * Z.to_nat (3 - 1)) (lit "abcdefgh").
Proof.
  apply (last_chunk_reaches_end (lit "abcdefgh") 3 1 9);
    [unfold valid_parameters; lia|reflexivity..].
Defined.

(** ** The lookup *)

Lemma get_chunk_by_index_stored_at (vectorstore : VectorStore) (t : Z) :
  get_chunk_by_index vectorstore t = Returns (stored_at vectorstore t).
Proof. done. Qed.

Lemma stored_at_index (vectorstore : VectorStore) (t : Z) (d : Document) :
  stored_at vectorstore t = Some d → md_index (metadata d) = Some t.
Proof.
  unfold stored_at. intros [_ Hmatch]%find_some. by apply index_matches_spec.
Qed.

(** In a store that lists the chunks of one run of the chunker, position
    [i] holds what the chunker put there. *)
Lemma stored_at_position (vectorstore : VectorStore) (text : str)
    (chunk_size chunk_overlap : Z) (fuel : nat) (chunks : list Document)
    (i : nat) (d : Document) :
  split_text_to_chunks_with_indices fuel text chunk_size chunk_overlap = Returns chunks →
  holds_chunks vectorstore chunks →
  chunks !! i = Some d →
  stored_at vectorstore (Z.of_nat i) = Some d.
Proof.
  intros Hrun Hstore Hi. unfold holds_chunks in Hstore.
  destruct (stored_at vectorstore (Z.of_nat i)) as [d'|] eqn:Hfound.
  - pose proof (stored_at_index _ _ _ Hfound) as Hindex.
    unfold stored_at in Hfound. apply find_some in Hfound as [Hin _].
    apply list_elem_of_In in Hin. rewrite Hstore in Hin.
    apply list_elem_of_lookup in Hin as [j Hj].
    rewrite (split_indices _ _ _ _ _ _ _ Hrun Hj) in Hindex.
    assert (j = i) as -> by (injection Hindex; lia). congruence.
  - exfalso. unfold stored_at in Hfound.
    assert (d ∈ chunks) as Hin by (by eapply list_elem_of_lookup_2).
    rewrite <- Hstore in Hin. apply list_elem_of_In in Hin.
    pose proof (find_none _ _ Hfound _ Hin) as Hmiss.
    pose proof (split_indices _ _ _ _ _ _ _ Hrun Hi) as Hindex.
    apply index_matches_spec in Hindex. congruence.
Qed.

(** X4.  Chunk, store, look up: when the store lists the chunks of one
    run of the chunker, in any order and for any parameters, the lookup of
    a position returns the very chunk the chunker put there. *)
Theorem lookup_finds_chunk (vectorstore : VectorStore) (text : str)
    (chunk_size chunk_overlap : Z) (fuel : nat) (chunks : list Document)
    (i : nat) (d : Document) :
  split_text_to_chunks_with_indices fuel text chunk_size chunk_overlap = Returns chunks →
  holds_chunks vectorstore chunks →
  chunks !! i = Some d →
  get_chunk_by_index vectorstore (Z.of_nat i) = Returns (Some d).
Proof.
  intros Hrun Hstore Hi. rewrite get_chunk_by_index_stored_at. f_equal.
  by eapply stored_at_position.
Qed.

(** The chunks listed last to first: the lookup still finds chunk 2. *)
Lemma lookup_finds_chunk_witness :
  get_chunk_by_index
    (mkVectorStore (fun _ _ => reverse (chunk_docs (lit "abcdefg") 3 1 4)) 4)
    (Z.of_nat 2)
  = Returns (Some (chunk_doc (lit "abcdefg") 3 1 2)).
Proof.
  apply (lookup_finds_chunk _ (lit "abcdefg") 3 1 8 (chunk_docs (lit "abcdefg") 3 1 4)).
  - reflexivity.
  - unfold holds_chunks. simpl. apply reverse_Permutation.
  - reflexivity.
Defined.

(** X5.  The lookup returns the first match of the full listing: when
    several documents carry the target index, the one listed first wins. *)
Theorem lookup_returns_first_match (vectorstore : VectorStore) (target_index : Z)
    (before after : list Document) (d : Document) :
  similarity_search vectorstore [] (index_ntotal vectorstore) = before ++ d :: after →
  Forall (fun x => md_index (metadata x) ≠ Some target_index) before →
  md_index (metadata d) = Some target_index →
  get_chunk_by_index vectorstore target_index = Returns (Some d).
Proof.
  intros Hlist Hbefore Hd. rewrite get_chunk_by_index_stored_at. f_equal.
  unfold stored_at. rewrite Hlist. clear Hlist.
  induction Hbefore as [|x before Hx _ IH]; simpl.
  - apply index_matches_spec in Hd. by rewrite Hd.
  - destruct (index_matches target_index x) eqn:Hmatch; [|done].
    by apply index_matches_spec in Hmatch.
Qed.

(** Two documents with the index 1: the one listed first is returned. *)
Lemma lookup_returns_first_match_witness :
  get_chunk_by_index
    (store_of [ mkDocument (lit "p") (mkMetadata (Some 0) None);
                mkDocument (lit "q") (mkMetadata (Some 1) None);
                mkDocument (lit "r") (mkMetadata (Some 1) None) ])
    1
  = Returns (Some (mkDocument (lit "q") (mkMetadata (Some 1) None))).
Proof.
  apply (lookup_returns_first_match _ 1
           [mkDocument (lit "p") (mkMetadata (Some 0) None)]
           [mkDocument (lit "r") (mkMetadata (Some 1) None)]).
  - reflexivity.
  - repeat constructor. discriminate.
  - reflexivity.
Defined.

(** X6.  The cell that checks the lookup prints the first [chunk_size]
    characters of the text when the store holds the chunks of a non-empty
    text cut with valid parameters; on a store without a document of
    index 0 it fails, for [None] has no [page_content]. *)
Theorem check_the_function_outcome (vectorstore : VectorStore) :
  (∀ text chunk_size chunk_overlap fuel chunks,
     valid_parameters chunk_size chunk_overlap →
     text ≠ [] →
     split_text_to_chunks_with_indices fuel text chunk_size chunk_overlap
     = Returns chunks →
     holds_chunks vectorstore chunks →
     check_the_function vectorstore = Returns (take (Z.to_nat chunk_size) text))
  ∧ ((∀ d, d ∈ similarity_search vectorstore [] (index_ntotal vectorstore) →
           md_index (metadata d) ≠ Some 0) →
     check_the_function vectorstore = Raises "AttributeError").
Proof.
  split.
  - intros text chunk_size chunk_overlap fuel chunks Hvalid Htext Hrun Hstore.
    pose proof (valid_step _ _ Hvalid) as Hstep.
    pose proof (valid_size _ _ Hvalid) as Hsize.
    pose proof (num_chunks_pos text _ _ Hstep Htext) as Hpos.
    pose proof (split_returns_inv _ _ _ Hstep _ _ Hrun) as Hchunks.
    destruct (num_chunks text chunk_size chunk_overlap) as [|n]; [lia|].
    assert (chunks !! 0%nat = Some (chunk_doc text chunk_size chunk_overlap 0)) as Hfirst
      by (by rewrite Hchunks).
    pose proof (stored_at_position vectorstore text chunk_size chunk_overlap fuel chunks
                  0 _ Hrun Hstore Hfirst) as Hlook.
    change (Z.of_nat 0) with 0 in Hlook.
    unfold check_the_function.
    rewrite get_chunk_by_index_stored_at, Hlook, bind_Returns. unfold mret, outcome_ret. f_equal.
    rewrite page_content_chunk_doc by done. by rewrite drop_0.
  - intros Hnone. unfold check_the_function.
    rewrite get_chunk_by_index_stored_at, bind_Returns.
    destruct (stored_at vectorstore 0) as [d|] eqn:Hfound; [|done].
    pose proof (stored_at_index _ _ _ Hfound) as Hindex.
    unfold stored_at in Hfound. apply find_some in Hfound as [Hin _].
    apply list_elem_of_In in Hin. by destruct (Hnone d Hin).
Qed.

Lemma check_the_function_outcome_witness :
  check_the_function (store_of (chunk_docs (lit "abcdefg") 3 1 4))
  = Returns (take (Z.to_nat 3) (lit "abcdefg")).
Proof.
  apply (proj1 (check_the_function_outcome (store_of (chunk_docs (lit "abcdefg") 3 1 4)))
           (lit "abcdefg") 3 1 8%nat (chunk_docs (lit "abcdefg") 3 1 4)).
  - unfold valid_parameters. lia.
  - discriminate.
  - reflexivity.
  - unfold holds_chunks. reflexivity.
Defined.

(** ** The working set of a hit, in any store *)

Lemma sorted_cons_bounded (x : Document) (l : list Document) :
  Sorted (fun a b => sort_key a ≤ sort_key b) l →
  Forall (fun d => sort_key x ≤ sort_key d) l →
  Sorted (fun a b => sort_key a ≤ sort_key b) (x :: l).
Proof.
  intros Hsorted Hbound. constructor; [done|].
  destruct Hbound; by constructor.
Qed.

Lemma sorted_snoc_bounded (l : list Document) (y : Document) :
  Sorted (fun a b => sort_key a ≤ sort_key b) l →
  Forall (fun d => sort_key d ≤ sort_key y) l →
  Sorted (fun a b => sort_key a ≤ sort_key b) (l ++ [y]).
Proof.
  induction 1 as [|x l Hsorted IH Hhd]; intros Hbound; simpl.
  - by repeat constructor.
  - apply Forall_cons in Hbound as [Hx Hl]. constructor; [by apply IH|].
    destruct Hhd; simpl; by constructor.
Qed.

(** Sorting a list that is in order changes nothing. *)
Lemma sort_by_key_sorted_id (l : list Document) :
  Sorted (fun a b => sort_key a ≤ sort_key b) l → sort_by_key l = l.
Proof.
  induction 1 as [|x l Hsorted IH Hhd]; simpl; [done|]. rewrite IH.
  destruct Hhd as [|y l Hxy]; simpl; [done|].
  destruct (Z.leb_spec (sort_key x) (sort_key y)); [done|lia].
Qed.

Section working_set.
Variables (vectorstore : VectorStore) (chunk : Document) (current_index : Z).
Hypothesis Hindex : md_index (metadata chunk) = Some current_index.

Local Abbreviation below := (neighbors_below vectorstore current_index).
Local Abbreviation above := (neighbors_above vectorstore current_index).

Lemma add_neighbors_option_list (neighbor_chunks : list Document) (i : Z) :
  add_neighbors vectorstore current_index neighbor_chunks i
  = Returns (option_list (stored_at vectorstore (current_index - i))
             ++ neighbor_chunks
             ++ option_list (stored_at vectorstore (current_index + i))).
Proof.
  unfold add_neighbors. rewrite !get_chunk_by_index_stored_at, !bind_Returns.
  destruct (stored_at vectorstore (current_index - i)),
           (stored_at vectorstore (current_index + i)); simpl;
    by rewrite ?app_nil_r.
Qed.

Lemma omap_singleton {A B : Type} (f : A → option B) (x : A) :
  omap f [x] = option_list (f x).
Proof. simpl. by destruct (f x). Qed.

Lemma reverse_option_list {A : Type} (o : option A) :
  reverse (option_list o) = option_list o.
Proof. by destruct o. Qed.

(** One more distance puts what is found below in front and what is found
    above at the end. *)
Lemma working_set_S (m : nat) :
  below (Z.of_nat (S m)) ++ [chunk] ++ above (Z.of_nat (S m))
  = option_list (stored_at vectorstore (current_index - (1 + Z.of_nat m)))
    ++ (below (Z.of_nat m) ++ [chunk] ++ above (Z.of_nat m))
    ++ option_list (stored_at vectorstore (current_index + (1 + Z.of_nat m))).
Proof.
  unfold neighbors_below, neighbors_above.
  rewrite !(Z.add_comm (Z.of_nat _) 1), py_range_S.
  rewrite !omap_app, !omap_singleton, reverse_app, reverse_option_list.
  by rewrite <- !app_assoc.
Qed.

Lemma neighbors_loop (m : nat) :
  for_each (py_range 1 (Z.of_nat m + 1))
           (add_neighbors vectorstore current_index) [chunk]
  = Returns (below (Z.of_nat m) ++ [chunk] ++ above (Z.of_nat m)).
Proof.
  induction m as [|m IH]; [done|].
  rewrite working_set_S, (Z.add_comm (Z.of_nat (S m)) 1), py_range_S.
  rewrite for_each_snoc, (Z.add_comm 1 (Z.of_nat m)), IH, bind_Returns.
  rewrite (Z.add_comm (Z.of_nat m) 1). apply add_neighbors_option_list.
Qed.

(** The working set is in ascending order of the index, all indices within
    the radius. *)
Lemma working_set_sorted (m : nat) :
  Sorted (fun a b => sort_key a ≤ sort_key b)
         (below (Z.of_nat m) ++ [chunk] ++ above (Z.of_nat m))
  ∧ Forall (fun d => current_index - Z.of_nat m ≤ sort_key d ≤ current_index + Z.of_nat m)
           (below (Z.of_nat m) ++ [chunk] ++ above (Z.of_nat m)).
Proof.
  assert (sort_key chunk = current_index) as Hkey
    by (unfold sort_key; by rewrite Hindex).
  induction m as [|m [IHsorted IHbound]].
  - split; repeat constructor; lia.
  - rewrite working_set_S.
    set (W := below (Z.of_nat m) ++ [chunk] ++ above (Z.of_nat m)) in *.
    assert (Forall (fun d => current_index - Z.of_nat (S m) < sort_key d
                             < current_index + Z.of_nat (S m)) W) as Hinner
      by (eapply Forall_impl; [exact IHbound|]; simpl; intros; lia).
    assert (∀ t d, stored_at vectorstore t = Some d → sort_key d = t) as Hstored
      by (intros t d Hd%stored_at_index; unfold sort_key; by rewrite Hd).
    destruct (stored_at vectorstore (current_index - (1 + Z.of_nat m))) as [p|] eqn:Hp;
      destruct (stored_at vectorstore (current_index + (1 + Z.of_nat m))) as [q|] eqn:Hq;
      try apply Hstored in Hp; try apply Hstored in Hq; simpl;
      rewrite ?app_nil_r.
    + split.
      * apply sorted_cons_bounded.
        -- apply sorted_snoc_bounded; [done|].
           eapply Forall_impl; [exact Hinner|]. simpl. intros. lia.
        -- apply Forall_app. split.
           ++ eapply Forall_impl; [exact Hinner|]. simpl. intros. lia.
           ++ repeat constructor. lia.
      * constructor; [lia|]. apply Forall_app. split.
        -- eapply Forall_impl; [exact Hinner|]. simpl. intros. lia.
        -- repeat constructor; lia.
    + split.
      * apply sorted_cons_bounded; [done|].
        eapply Forall_impl; [exact Hinner|]. simpl. intros. lia.
      * constructor; [lia|].
        eapply Forall_impl; [exact Hinner|]. simpl. intros. lia.
    + split.
      * apply sorted_snoc_bounded; [done|].
        eapply Forall_impl; [exact Hinner|]. simpl. intros. lia.
      * apply Forall_app. split.
        -- eapply Forall_impl; [exact Hinner|]. simpl. intros. lia.
        -- repeat constructor; lia.
    + split; [done|].
      eapply Forall_impl; [exact Hinner|]. simpl. intros. lia.
Qed.
End working_set.

(** X7.  In any store, the window of a hit is the concatenation of the
    chunks found below it, from the farthest to the nearest, the hit, and
    the chunks found above it, from the nearest to the farthest.  Every
    distance from 1 to [num_neighbors] is looked up on its own: a distance
    with no chunk is left out and the farther ones are still taken.  The
    working set is built in ascending order of the index, so the sort
    changes nothing. *)
Theorem context_window_working_set (vectorstore : VectorStore)
    (num_neighbors chunk_size chunk_overlap : Z) (chunk : Document) (current_index : Z) :
  md_index (metadata chunk) = Some current_index →
  context_window vectorstore num_neighbors chunk_size chunk_overlap chunk current_index
  = concatenate chunk_size chunk_overlap
      (neighbors_below vectorstore current_index num_neighbors
       ++ [chunk]
       ++ neighbors_above vectorstore current_index num_neighbors).
Proof.
  intros Hindex. unfold context_window.
  assert (py_range 1 (num_neighbors + 1)
          = py_range 1 (Z.of_nat (Z.to_nat num_neighbors) + 1)) as Hrange
    by (unfold py_range, seqZ; do 2 f_equal; lia).
  unfold neighbors_below, neighbors_above. rewrite Hrange.
  pose proof (neighbors_loop vectorstore chunk current_index (Z.to_nat num_neighbors))
    as Hloop.
  unfold neighbors_below, neighbors_above in Hloop. rewrite Hloop, bind_Returns.
  f_equal. apply sort_by_key_sorted_id.
  apply (working_set_sorted vectorstore chunk current_index Hindex (Z.to_nat num_neighbors)).
Qed.

(** A store without the chunk of index 1: around the hit of index 2 the
    window takes the chunks 0 and 3 all the same. *)
Lemma context_window_working_set_witness :
  context_window
    (store_of [ mkDocument (lit "ab") (mkMetadata (Some 0) None);
                mkDocument (lit "ef") (mkMetadata (Some 2) None);
                mkDocument (lit "gh") (mkMetadata (Some 3) None) ])
    2 2 1 (mkDocument (lit "ef") (mkMetadata (Some 2) None)) 2
  = concatenate 2 1
      ([mkDocument (lit "ab") (mkMetadata (Some 0) None)]
       ++ [mkDocument (lit "ef") (mkMetadata (Some 2) None)]
       ++ [mkDocument (lit "gh") (mkMetadata (Some 3) None)]).
Proof.
  apply (context_window_working_set
           (store_of [ mkDocument (lit "ab") (mkMetadata (Some 0) None);
                       mkDocument (lit "ef") (mkMetadata (Some 2) None);
                       mkDocument (lit "gh") (mkMetadata (Some 3) None) ])
           2 2 1 (mkDocument (lit "ef") (mkMetadata (Some 2) None)) 2).
  reflexivity.
Defined.

(** ** The window of a hit, in a store that holds the chunks *)

Lemma take_drop_chunk_docs (text : str) (chunk_size chunk_overlap : Z) (lo n total : nat) :
  (lo + n ≤ total)%nat →
  take n (drop lo (chunk_docs text chunk_size chunk_overlap total))
  = chunk_run text chunk_size chunk_overlap lo n.
Proof.
  intros Hle. unfold chunk_docs, chunk_run.
  change (map ?f ?l) with (f <$> l).
  rewrite <- fmap_drop, <- fmap_take, drop_seq, take_seq. do 2 f_equal. lia.
Qed.

Section hit_in_chunk_store.
Variables (vectorstore : VectorStore) (text : str) (chunk_size chunk_overlap : Z).
Variables (fuel : nat) (chunks : list Document) (h : nat) (hit : Document).
Hypothesis Hvalid : valid_parameters chunk_size chunk_overlap.
Hypothesis Hrun :
  split_text_to_chunks_with_indices fuel text chunk_size chunk_overlap = Returns chunks.
Hypothesis Hstore : holds_chunks vectorstore chunks.
Hypothesis Hhit : chunks !! h = Some hit.

Local Abbreviation total := (num_chunks text chunk_size chunk_overlap).

Lemma chunks_closed_form : chunks = chunk_docs text chunk_size chunk_overlap total.
Proof. eapply split_returns_inv; [by apply valid_step|done]. Qed.

Lemma hit_closed_form : hit = chunk_doc text chunk_size chunk_overlap h ∧ (h < total)%nat.
Proof.
  pose proof Hhit as Hh. rewrite chunks_closed_form in Hh.
  by apply (lookup_chunk_run _ _ _ 0) in Hh.
Qed.

Lemma length_chunks : length chunks = total.
Proof. rewrite chunks_closed_form. apply length_chunk_run. Qed.

(** The working set is the run of the chunks within the radius. *)
Lemma context_window_run (num_neighbors : Z) :
  let lo := (h - Z.to_nat num_neighbors)%nat in
  let hi := ((h + Z.to_nat num_neighbors) `min` (total - 1))%nat in
  context_window vectorstore num_neighbors chunk_size chunk_overlap hit (Z.of_nat h)
  = concatenate chunk_size chunk_overlap
      (chunk_run text chunk_size chunk_overlap lo (S (hi - lo))).
Proof.
  intros lo hi. destruct hit_closed_form as [-> Hh].
  pose proof (valid_step _ _ Hvalid) as Hstep.
  assert (holds_chunks vectorstore (chunk_docs text chunk_size chunk_overlap total))
    as Hstore' by (by rewrite <- chunks_closed_form).
  rewrite (context_window_chunk_store text chunk_size chunk_overlap vectorstore
             Hstep Hstore' num_neighbors h Hh).
  subst lo hi. symmetry. rewrite chunk_run_cons.
  apply concatenate_dropping_step. lia.
Qed.
End hit_in_chunk_store.

(** X8.  When the store holds the chunks of a text cut with valid
    parameters, the window of the hit at position [h] is the code's
    concatenation of the chunks at the positions [max 0 (h - n)] to
    [min (N - 1) (h + n)], for [n] neighbours and [N] chunks: at either end
    of the document the window takes the neighbours that exist, and
    nothing fails. *)
Theorem context_window_in_chunk_store (vectorstore : VectorStore) (text : str)
    (chunk_size chunk_overlap : Z) (fuel : nat) (chunks : list Document)
    (h : nat) (hit : Document) (num_neighbors : Z) :
  valid_parameters chunk_size chunk_overlap →
  split_text_to_chunks_with_indices fuel text chunk_size chunk_overlap = Returns chunks →
  holds_chunks vectorstore chunks →
  chunks !! h = Some hit →
  let lo := (h - Z.to_nat num_neighbors)%nat in
  let hi := ((h + Z.to_nat num_neighbors) `min` (length chunks - 1))%nat in
  context_window vectorstore num_neighbors chunk_size chunk_overlap hit (Z.of_nat h)
  = concatenate chunk_size chunk_overlap (take (S (hi - lo)) (drop lo chunks)).
Proof.
  intros Hvalid Hrun Hstore Hhit lo hi.
  pose proof (hit_closed_form _ _ _ _ _ _ _ Hvalid Hrun Hhit) as [_ Hh].
  pose proof (length_chunks _ _ _ _ _ Hvalid Hrun) as Hlen.
  rewrite (context_window_run vectorstore text chunk_size chunk_overlap fuel chunks h hit)
    by done.
  subst lo hi. rewrite Hlen.
  rewrite (chunks_closed_form _ _ _ _ _ Hvalid Hrun).
  rewrite take_drop_chunk_docs by lia. done.
Qed.

(** The first of four chunks, two neighbours: the chunks 0, 1 and 2. *)
Lemma context_window_in_chunk_store_witness :
  context_window (store_of (chunk_docs (lit "abcdefgh") 4 2 4)) 2 4 2
    (chunk_doc (lit "abcdefgh") 4 2 0) (Z.of_nat 0)
  = concatenate 4 2 (take 3 (drop 0 (chunk_docs (lit "abcdefgh") 4 2 4))).
Proof.
  apply (context_window_in_chunk_store (store_of (chunk_docs (lit "abcdefgh") 4 2 4))
           (lit "abcdefgh") 4 2 9 (chunk_docs (lit "abcdefgh") 4 2 4) 0
           (chunk_doc (lit "abcdefgh") 4 2 0) 2).
  - unfold valid_parameters. lia.
  - reflexivity.
  - unfold holds_chunks. reflexivity.
  - reflexivity.
Defined.

Lemma length_concat_bounded {A B : Type} (f : B → list A) (l : list B) (b : nat) :
  (∀ x, x ∈ l → (length (f x) ≤ b)%nat) →
  (length (concat (map f l)) ≤ length l * b)%nat.
Proof.
  induction l as [|x l IH]; intros Hb; simpl; [done|].
  rewrite length_app.
  pose proof (Hb x ltac:(left)).
  pose proof (IH (fun y Hy => Hb y ltac:(by right))). lia.
Qed.

Lemma concat_map_nil {A B : Type} (f : B → list A) (l : list B) :
  (∀ x, x ∈ l → f x = []) → concat (map f l) = [].
Proof.
  induction l as [|x l IH]; intros Hnil; simpl; [done|].
  rewrite (Hnil x) by left. apply IH. intros y Hy. apply Hnil. by right.
Qed.

Lemma length_page_content_chunk_run (text : str) (chunk_size chunk_overlap : Z)
    (lo n : nat) (d : Document) :
  valid_parameters chunk_size chunk_overlap →
  d ∈ chunk_run text chunk_size chunk_overlap lo n →
  (length (page_content d) ≤ Z.to_nat chunk_size)%nat.
Proof.
  intros Hvalid [i [-> _]%lookup_chunk_run]%list_elem_of_lookup.
  rewrite page_content_chunk_doc; [|by apply valid_step|by eapply valid_size].
  rewrite length_take. lia.
Qed.

(** X9.  When the store holds the chunks of a text cut with valid
    parameters, a window is never longer than
    [chunk_size + 2 * num_neighbors * chunk_overlap] characters: the first
    chunk of the working set goes in whole, every later one without its
    first [chunk_size - chunk_overlap] characters. *)
Theorem context_window_length (vectorstore : VectorStore) (text : str)
    (chunk_size chunk_overlap : Z) (fuel : nat) (chunks : list Document)
    (h : nat) (hit : Document) (num_neighbors : Z) :
  valid_parameters chunk_size chunk_overlap →
  split_text_to_chunks_with_indices fuel text chunk_size chunk_overlap = Returns chunks →
  holds_chunks vectorstore chunks →
  chunks !! h = Some hit →
  ∃ w,
    context_window vectorstore num_neighbors chunk_size chunk_overlap hit (Z.of_nat h)
    = Returns w
    ∧ len w ≤ chunk_size + 2 * Z.max 0 num_neighbors * chunk_overlap.
Proof.
  intros Hvalid Hrun Hstore Hhit.
  rewrite (context_window_run vectorstore text chunk_size chunk_overlap fuel chunks h hit)
    by done.
  set (lo := (h - Z.to_nat num_neighbors)%nat).
  set (hi := ((h + Z.to_nat num_neighbors)
              `min` (num_chunks text chunk_size chunk_overlap - 1))%nat).
  rewrite chunk_run_cons, concatenate_dropping_step
    by (pose proof (valid_step _ _ Hvalid); lia).
  eexists. split; [done|]. simpl. unfold len. rewrite length_app.
  pose proof (length_page_content_chunk_run text chunk_size chunk_overlap lo 1
                (chunk_doc text chunk_size chunk_overlap lo) Hvalid ltac:(left)) as Hfirst.
  pose proof (length_concat_bounded
                (fun d => drop (Z.to_nat (chunk_size - chunk_overlap)) (page_content d))
                (chunk_run text chunk_size chunk_overlap (S lo) (hi - lo))
                (Z.to_nat chunk_overlap)) as Hrest.
  rewrite length_chunk_run in Hrest.
  destruct Hvalid as [Hsize Hover].
  assert (length (concat (map (fun d => drop (Z.to_nat (chunk_size - chunk_overlap))
                                           (page_content d))
                              (chunk_run text chunk_size chunk_overlap (S lo) (hi - lo))))
          ≤ (hi - lo) * Z.to_nat chunk_overlap)%nat as Hbound.
  { apply Hrest. intros d Hd. rewrite length_drop.
    pose proof (length_page_content_chunk_run text chunk_size chunk_overlap _ _ d
                  (conj Hsize Hover) Hd). lia. }
  assert ((hi - lo) * Z.to_nat chunk_overlap
          ≤ 2 * Z.to_nat num_neighbors * Z.to_nat chunk_overlap)%nat as Hwidth
    by (apply Nat.mul_le_mono_r; lia).
  assert (Z.of_nat (2 * Z.to_nat num_neighbors * Z.to_nat chunk_overlap)
          = 2 * Z.max 0 num_neighbors * chunk_overlap) as Hprod
    by (rewrite !Nat2Z.inj_mul; f_equal; lia).
  simpl in Hfirst. lia.
Qed.

Lemma context_window_length_witness :
  ∃ w,
    context_window (store_of (chunk_docs (lit "abcdefgh") 3 1 4)) 1 3 1
      (chunk_doc (lit "abcdefgh") 3 1 1) (Z.of_nat 1)
    = Returns w
    ∧ len w ≤ 3 + 2 * Z.max 0 1 * 1.
Proof.
  apply (context_window_length (store_of (chunk_docs (lit "abcdefgh") 3 1 4))
           (lit "abcdefgh") 3 1 9 (chunk_docs (lit "abcdefgh") 3 1 4) 1).
  - unfold valid_parameters. lia.
  - reflexivity.
  - unfold holds_chunks. reflexivity.
  - reflexivity.
Defined.

(** X10.  Without overlap the window carries no neighbour at all, and not
    even the hit unless it comes first: with [chunk_overlap = 0] every
    chunk after the first of the working set is cut by a whole
    [chunk_size], so the window is the text of the lowest chunk alone. *)
Theorem context_window_without_overlap (vectorstore : VectorStore) (text : str)
    (chunk_size : Z) (fuel : nat) (chunks : list Document)
    (h : nat) (hit lowest : Document) (num_neighbors : Z) :
  0 < chunk_size →
  split_text_to_chunks_with_indices fuel text chunk_size 0 = Returns chunks →
  holds_chunks vectorstore chunks →
  chunks !! h = Some hit →
  chunks !! (h - Z.to_nat num_neighbors)%nat = Some lowest →
  context_window vectorstore num_neighbors chunk_size 0 hit (Z.of_nat h)
  = Returns (page_content lowest).
Proof.
  intros Hsize Hrun Hstore Hhit Hlowest.
  assert (valid_parameters chunk_size 0) as Hvalid by (unfold valid_parameters; lia).
  rewrite (context_window_run vectorstore text chunk_size 0 fuel chunks h hit) by done.
  destruct (hit_closed_form _ _ _ _ _ _ _ Hvalid Hrun Hlowest) as [-> _].
  rewrite chunk_run_cons, concatenate_dropping_step by lia.
  f_equal. simpl. rewrite concat_map_nil; [by rewrite app_nil_r|].
  intros d Hd. apply drop_ge.
  pose proof (length_page_content_chunk_run _ _ _ _ _ d Hvalid Hd). lia.
Qed.

(** The chunks ["ab"], ["cd"], ["ef"]: the window of ["cd"] with one
    neighbour is ["ab"]. *)
Lemma context_window_without_overlap_witness :
  context_window (store_of (chunk_docs (lit "abcdef") 2 0 3)) 1 2 0
    (chunk_doc (lit "abcdef") 2 0 1) (Z.of_nat 1)
  = Returns (page_content (chunk_doc (lit "abcdef") 2 0 0)).
Proof.
  apply (context_window_without_overlap (store_of (chunk_docs (lit "abcdef") 2 0 3))
           (lit "abcdef") 2 7 (chunk_docs (lit "abcdef") 2 0 3) 1).
  - lia.
  - reflexivity.
  - unfold holds_chunks. reflexivity.
  - reflexivity.
  - reflexivity.
Defined.

(** ** The retrieval *)

Lemma retrieve_loop_windows (vectorstore : VectorStore)
    (num_neighbors chunk_size chunk_overlap : Z) (window : nat → str)
    (hits : list Document) (hs : list nat) :
  Forall2 (fun hit h =>
             md_index (metadata hit) = Some (Z.of_nat h)
             ∧ context_window vectorstore num_neighbors chunk_size chunk_overlap
                 hit (Z.of_nat h)
               = Returns (window h)) hits hs →
  ∀ result_sequences,
    for_each hits (retrieve_step vectorstore num_neighbors chunk_size chunk_overlap)
      result_sequences
    = Returns (result_sequences ++ (window <$> hs)).
Proof.
  induction 1 as [|hit h hits hs [Hindex Hwindow] _ IH]; intros acc.
  - simpl. by rewrite app_nil_r.
  - rewrite for_each_cons.
    rewrite (retrieve_step_indexed _ _ _ _ _ _ _ _ Hindex Hwindow), bind_Returns, IH.
    by rewrite fmap_cons, <- app_assoc.
Qed.

(** X11.  With the overlap half the chunk size, as for the sizes 200 and
    100 of the notebook, the retrieval is exact: when the store holds the
    chunks of the text and the search returns chunks of the store, the
    result is, hit by hit, the span of the text from the start of the
    lowest chunk within [num_neighbors] of the hit to the end of the
    highest, nothing repeated and nothing lost. *)
Theorem retrieve_spans_half_overlap (vectorstore : VectorStore) (text : str)
    (chunk_overlap : Z) (fuel : nat) (chunks : list Document)
    (query : str) (k num_neighbors : Z) (hs : list nat) :
  0 < chunk_overlap →
  split_text_to_chunks_with_indices fuel text (2 * chunk_overlap) chunk_overlap
  = Returns chunks →
  holds_chunks vectorstore chunks →
  Forall2 (fun hit h => chunks !! h = Some hit)
          (similarity_search vectorstore query k) hs →
  retrieve_with_context_overlap vectorstore query k num_neighbors
    (2 * chunk_overlap) chunk_overlap
  = Returns (window_span text (2 * chunk_overlap) chunk_overlap num_neighbors <$> hs).
Proof.
  intros Hover Hrun Hstore Hhits.
  assert (valid_parameters (2 * chunk_overlap) chunk_overlap) as Hvalid
    by (unfold valid_parameters; lia).
  unfold retrieve_with_context_overlap.
  apply (retrieve_loop_windows vectorstore num_neighbors (2 * chunk_overlap) chunk_overlap
           (window_span text (2 * chunk_overlap) chunk_overlap num_neighbors)
           (similarity_search vectorstore query k) hs).
  eapply Forall2_impl; [exact Hhits|]. simpl. intros hit h Hh. split.
  - by apply (split_indices _ _ _ _ _ _ _ Hrun).
  - destruct (hit_closed_form _ _ _ _ _ _ _ Hvalid Hrun Hh) as [-> Hlt].
    apply (context_window_span_half_overlap text chunk_overlap vectorstore
             num_neighbors h Hover); [|done].
    by rewrite <- (chunks_closed_form _ _ _ _ _ Hvalid Hrun).
Qed.

(** The text ["abcdefgh"] cut with the sizes 4 and 2; the query has the
    hits ["cdef"] and ["efgh"], the chunks 1 and 2. *)
Lemma retrieve_spans_half_overlap_witness :
  retrieve_with_context_overlap (store_of (chunk_docs (lit "abcdefgh") 4 2 4))
    (lit "f") 2 1 (2 * 2) 2
  = Returns (window_span (lit "abcdefgh") (2 * 2) 2 1 <$> [1%nat; 2%nat]).
Proof.
  apply (retrieve_spans_half_overlap (store_of (chunk_docs (lit "abcdefgh") 4 2 4))
           (lit "abcdefgh") 2 9 (chunk_docs (lit "abcdefgh") 4 2 4)).
  - lia.
  - reflexivity.
  - unfold holds_chunks. reflexivity.
  - repeat constructor.
Defined.

Lemma context_window_no_neighbors (vectorstore : VectorStore)
    (num_neighbors chunk_size chunk_overlap : Z) (chunk : Document) (current_index : Z) :
  num_neighbors ≤ 0 →
  context_window vectorstore num_neighbors chunk_size chunk_overlap chunk current_index
  = Returns (page_content chunk).
Proof.
  intros Hnn. unfold context_window, py_range. by rewrite seqZ_nil by lia.
Qed.

Lemma retrieve_loop_no_neighbors (vectorstore : VectorStore)
    (num_neighbors chunk_size chunk_overlap : Z) (hits : list Document) :
  num_neighbors ≤ 0 →
  ∀ result_sequences,
    for_each hits (retrieve_step vectorstore num_neighbors chunk_size chunk_overlap)
      result_sequences
    = Returns (result_sequences
               ++ (page_content <$> filter (fun d => is_Some (md_index (metadata d))) hits)).
Proof.
  intros Hnn. induction hits as [|hit hits IH]; intros acc.
  - simpl. by rewrite app_nil_r.
  - rewrite for_each_cons.
    destruct (md_index (metadata hit)) as [ci|] eqn:Hci.
    + rewrite (indexed_cons_Some _ _ ci) by done.
      rewrite (retrieve_step_indexed _ _ _ _ _ _ ci (page_content hit))
        by (done || by apply context_window_no_neighbors).
      rewrite bind_Returns, IH, fmap_cons. by rewrite <- app_assoc.
    + rewrite indexed_cons_None by done.
      rewrite retrieve_step_skipped by done. apply IH.
Qed.

(** X12.  A negative [num_neighbors] is accepted and acts as zero: the
    range of distances is empty, no lookup is made, and the retrieval
    returns the texts of the hits that have an index, unchanged. *)
Theorem retrieve_negative_neighbors (vectorstore : VectorStore)
    (query : str) (k num_neighbors chunk_size chunk_overlap : Z) :
  num_neighbors < 0 →
  retrieve_with_context_overlap vectorstore query k num_neighbors chunk_size chunk_overlap
  = Returns (page_content <$>
               filter (fun d => is_Some (md_index (metadata d)))
                      (similarity_search vectorstore query k)).
Proof.
  intros Hnn. unfold retrieve_with_context_overlap.
  apply (retrieve_loop_no_neighbors vectorstore num_neighbors chunk_size chunk_overlap
           (similarity_search vectorstore query k)). lia.
Qed.

Lemma retrieve_negative_neighbors_witness :
  retrieve_with_context_overlap (store_of example_docs) (lit "d") 2 (-3) 3 1
  = Returns (page_content <$>
               filter (fun d => is_Some (md_index (metadata d)))
                      (similarity_search (store_of example_docs) (lit "d") 2)).
Proof.
  apply (retrieve_negative_neighbors (store_of example_docs) (lit "d") 2 (-3) 3 1).
  lia.
Defined.

(** The text ["abcdefg"] cut with the sizes 4 and 2 and put together again
    by the code's own concatenation. *)
Lemma concatenate_round_trip_half_overlap_witness :
  ∃ chunks,
    split_text_to_chunks_with_indices 8 (lit "abcdefg") (2 * 2) 2 = Returns chunks
    ∧ concatenate (2 * 2) 2 chunks = Returns (lit "abcdefg").
Proof.
  apply (concatenate_round_trip_half_overlap (lit "abcdefg") 2 8).
  - lia.
  - discriminate.
  - simpl. lia.
Defined.

(** ** A negative overlap *)

(** With a step no shorter than a chunk, the chunks from [lo] on fit, one
    after the other, into the text from the offset of chunk [lo] on. *)
Lemma length_chunk_run_texts (text : str) (chunk_size chunk_overlap : Z) (n : nat) :
  0 ≤ chunk_size → chunk_overlap ≤ 0 → 0 < chunk_size - chunk_overlap →
  ∀ lo,
    (length (concat (map page_content (chunk_run text chunk_size chunk_overlap lo n)))
     ≤ length (drop (lo * Z.to_nat (chunk_size - chunk_overlap)) text))%nat.
Proof.
  intros Hsize Hover Hstep. induction n as [|n IH]; intros lo; [simpl; lia|].
  rewrite chunk_run_cons. cbn [map concat]. rewrite length_app.
  rewrite page_content_chunk_doc by done.
  specialize (IH (S lo)). rewrite length_take. rewrite !length_drop in *.
  rewrite Nat.mul_succ_l in IH. lia.
Qed.

(** X14.  A negative [chunk_overlap] is accepted without complaint, and
    text is lost: the step is then longer than a chunk, the chunks leave
    gaps, and for a text longer than [chunk_size] all the chunks together
    hold fewer characters than the text. *)
Theorem negative_overlap_loses_text (text : str) (chunk_size chunk_overlap : Z)
    (fuel : nat) :
  0 < chunk_size →
  chunk_overlap < 0 →
  chunk_size < len text →
  (length text < fuel)%nat →
  ∃ chunks,
    split_text_to_chunks_with_indices fuel text chunk_size chunk_overlap = Returns chunks
    ∧ len (concat (map page_content chunks)) < len text.
Proof.
  intros Hsize Hover Hlong Hfuel.
  assert (0 < chunk_size - chunk_overlap) as Hstep by lia.
  eexists. split; [by apply split_returns|].
  assert (text ≠ []) as Htext by (intros ->; unfold len in Hlong; simpl in Hlong; lia).
  pose proof (num_chunks_pos text _ _ Hstep Htext) as Hpos.
  destruct (num_chunks text chunk_size chunk_overlap) as [|n]; [lia|].
  unfold chunk_docs. rewrite chunk_run_cons. cbn [map concat].
  unfold len in *. rewrite length_app, page_content_chunk_doc by lia.
  pose proof (length_chunk_run_texts text chunk_size chunk_overlap n
                ltac:(lia) ltac:(lia) Hstep 1) as Hrest.
  rewrite length_take, !length_drop in *. lia.
Qed.

(** Chunks of two characters, every third character skipped. *)
Lemma negative_overlap_loses_text_witness :
  ∃ chunks,
    split_text_to_chunks_with_indices 8 (lit "abcdefg") 2 (-1) = Returns chunks
    ∧ len (concat (map page_content chunks)) < len (lit "abcdefg").
Proof.
  apply (negative_overlap_loses_text (lit "abcdefg") 2 (-1) 8).
  - lia.
  - lia.
  - vm_compute. reflexivity.
  - simpl. lia.
Defined.
